(** * Boilermaker Toolbox: the payroll and rigging calculation engines

    A shallow embedding of the calculation core of the repository
    ([taxCalculations.ts], [payrollCalculations.ts], [riggingCalculations.ts]
    and the constant tables of [types/constants.ts]) together with the
    properties its specification states about it.

    Number model.  The source computes on JavaScript numbers.
    - The tax and payroll engines only add, subtract, multiply, compare and
      divide by the number of pay periods; they are embedded over the
      rationals [Q] with exact arithmetic, so every definition evaluates.
      Decimal literals of the source ([0.0595], [9.80665]) denote their exact
      decimal value.  Binary rounding of IEEE-754 doubles, [NaN] and the
      infinities are outside this part of the model.
    - The rigging engine divides by quantities that can be zero, overflows
      and cancels.  [calculateLoadDistribution] and [calculateSafetyFactors]
      are embedded over [Binary64.double], IEEE-754 binary64 as JavaScript
      computes it: every operation rounds to the nearest double, ties to
      even, with gradual underflow, overflow to the infinities, the two
      zeros and [NaN]; a decimal literal is the double nearest to it.
    - [Math.cos] has no bit-exact specification, so [calculateAngleFactor]
      and the analysis built on it ([calculateRiggingAnalysis]) are embedded
      over [num], the real numbers extended with [+Infinity], [-Infinity]
      and [NaN], with exact arithmetic on finite values (the sign of zero is
      not tracked: every zero is [+0]).  This idealised reading serves the
      angle factor and the properties of the analysis that do not depend on
      the values computed.

    Definitions come first, the theorems about them follow. *)

From Stdlib Require Import ZArith QArith Qminmax Qround Qabs Reals Psatz.
From Stdlib Require Import List String Ascii Bool.
Import ListNotations.

(** ** types/common.ts *)

Inductive Province : Set :=
  | AB | BC | MB | NB | NL | NS | NT | NU | ON | PE | QC | SK | YT.

Inductive PayFrequency : Set := weekly | biweekly | semimonthly | monthly.

Inductive HitchType : Set := vertical | choker | basket.

Definition Province_eqb (a b : Province) : bool :=
  match a, b with
  | AB, AB | BC, BC | MB, MB | NB, NB | NL, NL | NS, NS | NT, NT
  | NU, NU | ON, ON | PE, PE | QC, QC | SK, SK | YT, YT => true
  | _, _ => false
  end.

(** ** types/payroll.ts: the interfaces, one module per interface so that the
    field names of the source can be kept. *)

Module PayrollInputs.
Record t : Type := Build {
  rate : Q;            (* base hourly rate ($/hr) *)
  straightTime : Q;    (* regular hours *)
  overtimeHalf : Q;    (* time-and-a-half hours *)
  overtimeDouble : Q;  (* double-time hours *)
  shiftPremium : Q;    (* shift premium ($/hr) *)
  travelHours : Q;
  travelRate : Q;
  perDiem : Q;
  days : Q;
  payDate : string;    (* YYYY-MM-DD *)
  frequency : PayFrequency;
  province : Province
}.
End PayrollInputs.

Module DeductionInputs.
Record t : Type := Build {
  unionDuesPercent : Q;
  rrspPercent : Q;
  rrspAtSource : bool;
  otherDeductions : Q
}.
End DeductionInputs.

Module YTDInputs.
Record t : Type := Build {
  pensionableEarnings : Q;
  cpp1Paid : Q;
  cpp2Paid : Q;
  insurableEarnings : Q;
  eiPaid : Q
}.
End YTDInputs.

Module GrossPayBreakdown.
Record t : Type := Build {
  straightTimePay : Q;
  overtimeHalfPay : Q;
  overtimeDoublePay : Q;
  shiftPremiumPay : Q;
  travelPay : Q;
  wage : Q;
  allowances : Q;
  total : Q
}.
End GrossPayBreakdown.

Module CPPResult.
Record t : Type := Build {
  cpp1 : Q;
  cpp2 : Q;
  pensionableEarnings : Q;
  cpp2Base : Q
}.
End CPPResult.

Module EIResult.
Record t : Type := Build {
  ei : Q;
  insurableEarnings : Q
}.
End EIResult.

Module TaxResult.
Record t : Type := Build {
  federal : Q;
  provincial : Q;
  taxableIncome : Q;
  annualizedIncome : Q
}.
End TaxResult.

Module DeductionBreakdown.
Record t : Type := Build {
  union : Q;
  rrsp : Q;
  other : Q;
  cpp1 : Q;
  cpp2 : Q;
  ei : Q;
  federal : Q;
  provincial : Q;
  total : Q
}.
End DeductionBreakdown.

Module PayrollResults.
Record t : Type := Build {
  gross : GrossPayBreakdown.t;
  deductions : DeductionBreakdown.t;
  net : Q
}.
End PayrollResults.

Module TaxConstants.
Record t : Type := Build {
  YMPE : Q;
  YAMPE : Q;
  CPP_RATE : Q;
  CPP2_RATE : Q;
  CPP_BASIC_EXEMPTION : Q;
  EI_MIE : Q;
  EI_RATE : Q;
  FEDERAL_BRACKETS : list Q;
  FEDERAL_RATES_JAN : list Q;
  FEDERAL_RATES_JUL : list Q;
  AB_BRACKETS : list Q;
  AB_RATES_JAN : list Q;
  AB_RATES_JUL : list Q;
  FEDERAL_BPA_MAX : Q;
  FEDERAL_BPA_MIN : Q;
  FEDERAL_BPA_THRESHOLD_LOW : Q;
  FEDERAL_BPA_THRESHOLD_HIGH : Q;
  CANADA_EMPLOYMENT_AMOUNT : Q;
  AB_BPA : Q
}.
End TaxConstants.

(** ** types/constants.ts *)

Definition TAX_CONSTANTS_2025 : TaxConstants.t :=
  {| TaxConstants.YMPE := 71300;
     TaxConstants.YAMPE := 81200;
     TaxConstants.CPP_RATE := 0.0595;
     TaxConstants.CPP2_RATE := 0.04;
     TaxConstants.CPP_BASIC_EXEMPTION := 3500;
     TaxConstants.EI_MIE := 65700;
     TaxConstants.EI_RATE := 0.0164;
     TaxConstants.FEDERAL_BRACKETS := [57375; 114750; 177882; 253414];
     TaxConstants.FEDERAL_RATES_JAN := [0.15; 0.205; 0.26; 0.29; 0.33];
     TaxConstants.FEDERAL_RATES_JUL := [0.14; 0.205; 0.26; 0.29; 0.33];
     TaxConstants.AB_BRACKETS := [60000; 151234; 181481; 241974; 362961];
     TaxConstants.AB_RATES_JAN := [0.10; 0.10; 0.12; 0.13; 0.14; 0.15];
     TaxConstants.AB_RATES_JUL := [0.06; 0.10; 0.12; 0.13; 0.14; 0.15];
     TaxConstants.FEDERAL_BPA_MAX := 16129;
     TaxConstants.FEDERAL_BPA_MIN := 14538;
     TaxConstants.FEDERAL_BPA_THRESHOLD_LOW := 177882;
     TaxConstants.FEDERAL_BPA_THRESHOLD_HIGH := 253414;
     TaxConstants.CANADA_EMPLOYMENT_AMOUNT := 1471;
     TaxConstants.AB_BPA := 22323 |}%Q.

Module FrequencyConfig.
Record t : Type := Build {
  periods : Q;
  label : string
}.
End FrequencyConfig.

Definition PAY_FREQUENCY_CONFIG (frequency : PayFrequency) : FrequencyConfig.t :=
  match frequency with
  | weekly =>
      {| FrequencyConfig.periods := 52; FrequencyConfig.label := "Weekly (52)" |}
  | biweekly =>
      {| FrequencyConfig.periods := 26; FrequencyConfig.label := "Biweekly (26)" |}
  | semimonthly =>
      {| FrequencyConfig.periods := 24; FrequencyConfig.label := "Semi-monthly (24)" |}
  | monthly =>
      {| FrequencyConfig.periods := 12; FrequencyConfig.label := "Monthly (12)" |}
  end.

(** ** Pay dates

    [new Date(payDate + 'T00:00:00')] for a [payDate] in the documented
    [YYYY-MM-DD] format.  A [Date] is modelled by its calendar day; any
    string that is not a calendar day in that format is an Invalid Date
    ([None]), whose comparisons are all false. *)

Module JSDate.

Definition t : Type := option (Z * Z * Z).

Definition digit (c : ascii) : option Z :=
  let n := nat_of_ascii c in
  if ((48 <=? n) && (n <=? 57))%nat then Some (Z.of_nat (n - 48)) else None.

Definition number2 (a b : ascii) : option Z :=
  match digit a, digit b with
  | Some x, Some y => Some (10 * x + y)%Z
  | _, _ => None
  end.

Definition number4 (a b c d : ascii) : option Z :=
  match number2 a b, number2 c d with
  | Some x, Some y => Some (100 * x + y)%Z
  | _, _ => None
  end.

Definition isLeapYear (y : Z) : bool :=
  ((y mod 4 =? 0) && negb (y mod 100 =? 0) || (y mod 400 =? 0))%Z.

Definition daysInMonth (y m : Z) : Z :=
  (if m =? 2 then (if isLeapYear y then 29 else 28)
   else if (m =? 4) || (m =? 6) || (m =? 9) || (m =? 11) then 30
   else 31)%Z.

Definition make (y m d : Z) : t :=
  if ((1 <=? m) && (m <=? 12) && (1 <=? d) && (d <=? daysInMonth y m))%Z
  then Some (y, m, d) else None.

Definition parse (payDate : string) : t :=
  match payDate with
  | String y1 (String y2 (String y3 (String y4 (String "-"
      (String m1 (String m2 (String "-"
        (String d1 (String d2 EmptyString))))))))) =>
      match number4 y1 y2 y3 y4, number2 m1 m2, number2 d1 d2 with
      | Some y, Some m, Some d => make y m d
      | _, _, _ => None
      end
  | _ => None
  end.

(** [a >= b] on Date objects. *)
Definition ge (a b : t) : bool :=
  match a, b with
  | Some (ya, ma, da), Some (yb, mb, db) =>
      ((yb <? ya) || ((yb =? ya) && ((mb <? ma) || ((mb =? ma) && (db <=? da)))))%Z
  | _, _ => false
  end.

End JSDate.

(** ** utils/calculations/taxCalculations.ts *)

Module Tax.

Local Open Scope Q_scope.
Import TaxConstants.

(** [Math.round]: the nearest integer, ties towards [+Infinity]. *)
Definition Math_round (x : Q) : Z := Qfloor (x + 0.5).

(** [const round2 = (value) => Math.round(value * 100) / 100] *)
Definition round2 (value : Q) : Q := inject_Z (Math_round (value * 100)) / 100.

Definition calculateCPP
    (pensionableEarnings ytdPensionable periodsPerYear : Q) : CPPResult.t :=
  let YMPE := YMPE TAX_CONSTANTS_2025 in
  let YAMPE := YAMPE TAX_CONSTANTS_2025 in
  let CPP_RATE := CPP_RATE TAX_CONSTANTS_2025 in
  let CPP2_RATE := CPP2_RATE TAX_CONSTANTS_2025 in
  let CPP_BASIC_EXEMPTION := CPP_BASIC_EXEMPTION TAX_CONSTANTS_2025 in
  let cppBaseExemptionPerPay := CPP_BASIC_EXEMPTION / periodsPerYear in
  let pensionableThisPay := Qmax 0 pensionableEarnings in
  (* CPP1: annual room and per-pay exemption *)
  let cppRoom := Qmax 0 ((YMPE - CPP_BASIC_EXEMPTION) - ytdPensionable) in
  let cppPensionableThisPay :=
    Qmax 0 (Qmin (pensionableThisPay - cppBaseExemptionPerPay) cppRoom) in
  let cpp1 := round2 (cppPensionableThisPay * CPP_RATE) in
  (* CPP2: earnings above YMPE up to YAMPE *)
  let pensionableAfterThisPay := Qmin (ytdPensionable + pensionableThisPay) YAMPE in
  let aboveYMPEBefore := Qmax 0 (Qmin ytdPensionable YAMPE - YMPE) in
  let aboveYMPEAfter := Qmax 0 (pensionableAfterThisPay - YMPE) in
  let cpp2BaseThisPay := Qmax 0 (aboveYMPEAfter - aboveYMPEBefore) in
  let cpp2Room :=
    Qmax 0 ((YAMPE - YMPE)
            - (if Qlt_le_dec YMPE ytdPensionable
               then Qmin ytdPensionable YAMPE - YMPE else 0)) in
  let cpp2Base := Qmin cpp2BaseThisPay cpp2Room in
  let cpp2 := round2 (cpp2Base * CPP2_RATE) in
  {| CPPResult.cpp1 := cpp1;
     CPPResult.cpp2 := cpp2;
     CPPResult.pensionableEarnings := cppPensionableThisPay;
     CPPResult.cpp2Base := cpp2Base |}.

Definition calculateEI
    (insurableEarnings ytdInsurable periodsPerYear : Q) : EIResult.t :=
  let EI_MIE := EI_MIE TAX_CONSTANTS_2025 in
  let EI_RATE := EI_RATE TAX_CONSTANTS_2025 in
  let insurableThisPay := Qmax 0 insurableEarnings in
  let eiRoom := Qmax 0 (EI_MIE - ytdInsurable) in
  let eiBase := Qmin insurableThisPay eiRoom in
  let ei := round2 (eiBase * EI_RATE) in
  {| EIResult.ei := ei; EIResult.insurableEarnings := eiBase |}.

(** An upper bracket bound: a threshold of the table, or the [Infinity] that
    [calculateProgressiveTax] appends to it. *)
Inductive bound : Type :=
  | Threshold (q : Q)
  | Infinity.

(** [Math.max(0, Math.min(annualIncome, upperThreshold) - lastThreshold)] for
    a finite [annualIncome]; [lastThreshold] starts at 0 and then holds the
    previous upper bound. *)
Definition taxableInBracket (annualIncome : Q) (upperThreshold lastThreshold : bound) : Q :=
  match lastThreshold with
  | Infinity => 0
  | Threshold last =>
      match upperThreshold with
      | Threshold upper => Qmax 0 (Qmin annualIncome upper - last)
      | Infinity => Qmax 0 (annualIncome - last)
      end
  end.

(** The [for] loop of [calculateProgressiveTax] from index [i] on, with the
    values of [tax] and [lastThreshold] on entry; [brackets] holds the
    entries from index [i].  A missing [rates[i]] is read as 0: the tables
    of [TAX_CONSTANTS_2025] hold one rate per bracket. *)
Fixpoint progressiveTaxLoop (annualIncome : Q) (rates : list Q)
    (brackets : list bound) (i : nat) (tax : Q) (lastThreshold : bound) : Q :=
  match brackets with
  | [] => tax
  | upperThreshold :: rest =>
      let rate := nth i rates 0 in
      let taxable := taxableInBracket annualIncome upperThreshold lastThreshold in
      if Qle_bool taxable 0 then tax
      else progressiveTaxLoop annualIncome rates rest (S i)
             (tax + taxable * rate) upperThreshold
  end.

Definition calculateProgressiveTax
    (annualIncome : Q) (thresholds rates : list Q) : Q :=
  let brackets := map Threshold thresholds ++ [Infinity] in
  progressiveTaxLoop annualIncome rates brackets 0 0 (Threshold 0).

Definition calculateFederalBPA (annualIncome : Q) : Q :=
  let FEDERAL_BPA_MAX := FEDERAL_BPA_MAX TAX_CONSTANTS_2025 in
  let FEDERAL_BPA_MIN := FEDERAL_BPA_MIN TAX_CONSTANTS_2025 in
  let FEDERAL_BPA_THRESHOLD_LOW := FEDERAL_BPA_THRESHOLD_LOW TAX_CONSTANTS_2025 in
  let FEDERAL_BPA_THRESHOLD_HIGH := FEDERAL_BPA_THRESHOLD_HIGH TAX_CONSTANTS_2025 in
  if Qle_bool annualIncome FEDERAL_BPA_THRESHOLD_LOW then FEDERAL_BPA_MAX
  else if Qle_bool FEDERAL_BPA_THRESHOLD_HIGH annualIncome then FEDERAL_BPA_MIN
  else
    (* linear phase-out between the thresholds *)
    let phaseOutRatio :=
      (FEDERAL_BPA_THRESHOLD_HIGH - annualIncome)
      / (FEDERAL_BPA_THRESHOLD_HIGH - FEDERAL_BPA_THRESHOLD_LOW) in
    FEDERAL_BPA_MIN + (FEDERAL_BPA_MAX - FEDERAL_BPA_MIN) * phaseOutRatio.

Definition calculateIncomeTax (taxableIncome : Q) (payDate : string)
    (province : Province) (periodsPerYear : Q) : TaxResult.t :=
  let annualizedIncome := taxableIncome * periodsPerYear in
  let payDateObj := JSDate.parse payDate in
  let isJulyOrLater := JSDate.ge payDateObj (JSDate.parse "2025-07-01") in
  (* federal tax, with the mid-year rate change *)
  let federalRates :=
    if isJulyOrLater then FEDERAL_RATES_JUL TAX_CONSTANTS_2025
    else FEDERAL_RATES_JAN TAX_CONSTANTS_2025 in
  let federalCreditRate := nth 0 federalRates 0 in
  let federalBPA := calculateFederalBPA annualizedIncome in
  let federalBeforeCredits :=
    calculateProgressiveTax annualizedIncome
      (FEDERAL_BRACKETS TAX_CONSTANTS_2025) federalRates in
  let federalCredits :=
    federalCreditRate * (federalBPA + CANADA_EMPLOYMENT_AMOUNT TAX_CONSTANTS_2025) in
  let federalAnnual := Qmax 0 (federalBeforeCredits - federalCredits) in
  (* provincial tax: Alberta only *)
  let provincialAnnual :=
    if Province_eqb province AB then
      let albertaRates :=
        if isJulyOrLater then AB_RATES_JUL TAX_CONSTANTS_2025
        else AB_RATES_JAN TAX_CONSTANTS_2025 in
      let albertaCreditRate := nth 0 albertaRates 0 in
      let albertaBeforeCredits :=
        calculateProgressiveTax annualizedIncome
          (AB_BRACKETS TAX_CONSTANTS_2025) albertaRates in
      let albertaCredits := albertaCreditRate * AB_BPA TAX_CONSTANTS_2025 in
      Qmax 0 (albertaBeforeCredits - albertaCredits)
    else 0 in
  (* per-pay amounts *)
  let federal := round2 (federalAnnual / periodsPerYear) in
  let provincial := round2 (provincialAnnual / periodsPerYear) in
  {| TaxResult.federal := federal;
     TaxResult.provincial := provincial;
     TaxResult.taxableIncome := taxableIncome;
     TaxResult.annualizedIncome := annualizedIncome |}.

Module StatutoryDeductions.
Record t : Type := Build {
  cpp : CPPResult.t;
  ei : EIResult.t;
  tax : TaxResult.t;
  totalStatutory : Q
}.
End StatutoryDeductions.

Definition calculateStatutoryDeductions (grossWage ytdPensionable ytdInsurable : Q)
    (payDate : string) (province : Province) (periodsPerYear rrspAtSource : Q)
    : StatutoryDeductions.t :=
  let cppResult := calculateCPP grossWage ytdPensionable periodsPerYear in
  let eiResult := calculateEI grossWage ytdInsurable periodsPerYear in
  let taxableIncome := Qmax 0 (grossWage - rrspAtSource) in
  let taxResult := calculateIncomeTax taxableIncome payDate province periodsPerYear in
  {| StatutoryDeductions.cpp := cppResult;
     StatutoryDeductions.ei := eiResult;
     StatutoryDeductions.tax := taxResult;
     StatutoryDeductions.totalStatutory :=
       CPPResult.cpp1 cppResult + CPPResult.cpp2 cppResult + EIResult.ei eiResult
       + TaxResult.federal taxResult + TaxResult.provincial taxResult |}.

(** The sum [calculateProgressiveTax] is after: every bracket from index [i]
    on contributes its rate times the income that falls into it.  This is
    the loop of [progressiveTaxLoop] with the [break] left out; it is what
    the loop is compared with below. *)
Fixpoint bracketSum (annualIncome : Q) (rates : list Q)
    (brackets : list bound) (i : nat) (lastThreshold : bound) : Q :=
  match brackets with
  | [] => 0
  | upperThreshold :: rest =>
      taxableInBracket annualIncome upperThreshold lastThreshold * nth i rates 0
      + bracketSum annualIncome rates rest (S i) upperThreshold
  end.

End Tax.

(** ** utils/calculations/payrollCalculations.ts *)

Module Payroll.

Local Open Scope Q_scope.

(** The file's own copy of [round2]. *)
Definition round2 (value : Q) : Q := inject_Z (Tax.Math_round (value * 100)) / 100.

Definition calculateGrossPay (inputs : PayrollInputs.t) : GrossPayBreakdown.t :=
  let rate := PayrollInputs.rate inputs in
  let straightTime := PayrollInputs.straightTime inputs in
  let overtimeHalf := PayrollInputs.overtimeHalf inputs in
  let overtimeDouble := PayrollInputs.overtimeDouble inputs in
  let shiftPremium := PayrollInputs.shiftPremium inputs in
  let travelHours := PayrollInputs.travelHours inputs in
  let travelRate := PayrollInputs.travelRate inputs in
  let perDiem := PayrollInputs.perDiem inputs in
  let days := PayrollInputs.days inputs in
  (* wage components *)
  let straightTimePay := round2 (straightTime * (rate + shiftPremium)) in
  let overtimeHalfPay := round2 (overtimeHalf * (rate * 1.5 + shiftPremium)) in
  let overtimeDoublePay := round2 (overtimeDouble * (rate * 2.0 + shiftPremium)) in
  let shiftPremiumPay :=
    round2 ((straightTime + overtimeHalf + overtimeDouble) * shiftPremium) in
  let travelPay := round2 (travelHours * travelRate) in
  (* allowances *)
  let allowances := round2 (perDiem * days) in
  (* totals *)
  let wage := round2 (straightTimePay + overtimeHalfPay + overtimeDoublePay + travelPay) in
  let total := round2 (wage + allowances) in
  {| GrossPayBreakdown.straightTimePay := straightTimePay;
     GrossPayBreakdown.overtimeHalfPay := overtimeHalfPay;
     GrossPayBreakdown.overtimeDoublePay := overtimeDoublePay;
     GrossPayBreakdown.shiftPremiumPay := shiftPremiumPay;
     GrossPayBreakdown.travelPay := travelPay;
     GrossPayBreakdown.wage := wage;
     GrossPayBreakdown.allowances := allowances;
     GrossPayBreakdown.total := total |}.

Module VoluntaryDeductions.
Record t : Type := Build {
  union : Q;
  rrsp : Q;
  other : Q;
  totalVoluntary : Q
}.
End VoluntaryDeductions.

Definition calculateVoluntaryDeductions (grossWage : Q)
    (deductionInputs : DeductionInputs.t) : VoluntaryDeductions.t :=
  let unionDuesPercent := DeductionInputs.unionDuesPercent deductionInputs in
  let rrspPercent := DeductionInputs.rrspPercent deductionInputs in
  let otherDeductions := DeductionInputs.otherDeductions deductionInputs in
  let union := round2 ((grossWage * unionDuesPercent) / 100) in
  let rrsp := round2 ((grossWage * rrspPercent) / 100) in
  let other := round2 otherDeductions in
  {| VoluntaryDeductions.union := union;
     VoluntaryDeductions.rrsp := rrsp;
     VoluntaryDeductions.other := other;
     VoluntaryDeductions.totalVoluntary := round2 (union + rrsp + other) |}.

Definition calculateDeductions (grossWage : Q) (deductionInputs : DeductionInputs.t)
    (ytdInputs : YTDInputs.t) (payDate : string) (province : Province)
    (frequency : PayFrequency) (rrspAtSource : bool) : DeductionBreakdown.t :=
  let periodsPerYear := FrequencyConfig.periods (PAY_FREQUENCY_CONFIG frequency) in
  let voluntary := calculateVoluntaryDeductions grossWage deductionInputs in
  let rrspAtSourceAmount :=
    if rrspAtSource then VoluntaryDeductions.rrsp voluntary else 0 in
  let statutory :=
    Tax.calculateStatutoryDeductions grossWage
      (YTDInputs.pensionableEarnings ytdInputs)
      (YTDInputs.insurableEarnings ytdInputs)
      payDate province periodsPerYear rrspAtSourceAmount in
  let cpp := Tax.StatutoryDeductions.cpp statutory in
  let ei := Tax.StatutoryDeductions.ei statutory in
  let tax := Tax.StatutoryDeductions.tax statutory in
  let total :=
    round2 (VoluntaryDeductions.union voluntary
            + VoluntaryDeductions.rrsp voluntary
            + VoluntaryDeductions.other voluntary
            + CPPResult.cpp1 cpp
            + CPPResult.cpp2 cpp
            + EIResult.ei ei
            + TaxResult.federal tax
            + TaxResult.provincial tax) in
  {| DeductionBreakdown.union := VoluntaryDeductions.union voluntary;
     DeductionBreakdown.rrsp := VoluntaryDeductions.rrsp voluntary;
     DeductionBreakdown.other := VoluntaryDeductions.other voluntary;
     DeductionBreakdown.cpp1 := CPPResult.cpp1 cpp;
     DeductionBreakdown.cpp2 := CPPResult.cpp2 cpp;
     DeductionBreakdown.ei := EIResult.ei ei;
     DeductionBreakdown.federal := TaxResult.federal tax;
     DeductionBreakdown.provincial := TaxResult.provincial tax;
     DeductionBreakdown.total := total |}.

Definition calculateNetPay (grossTotal totalDeductions : Q) : Q :=
  round2 (grossTotal - totalDeductions).

Definition calculatePayroll (payrollInputs : PayrollInputs.t)
    (deductionInputs : DeductionInputs.t) (ytdInputs : YTDInputs.t)
    : PayrollResults.t :=
  let gross := calculateGrossPay payrollInputs in
  let deductions :=
    calculateDeductions (GrossPayBreakdown.wage gross) deductionInputs ytdInputs
      (PayrollInputs.payDate payrollInputs)
      (PayrollInputs.province payrollInputs)
      (PayrollInputs.frequency payrollInputs)
      (DeductionInputs.rrspAtSource deductionInputs) in
  let net :=
    calculateNetPay (GrossPayBreakdown.total gross)
      (DeductionBreakdown.total deductions) in
  {| PayrollResults.gross := gross;
     PayrollResults.deductions := deductions;
     PayrollResults.net := net |}.

Module ValidationResult.
Record t : Type := Build {
  isValid : bool;
  errors : list string;
  warnings : list string
}.
End ValidationResult.

(** [if (cond) list.push(message)] *)
Definition pushIf (cond : bool) (message : string) (l : list string) : list string :=
  if cond then l ++ [message] else l.

(** [a < b] and [a > b] on numbers. *)
Definition Qlt_bool (a b : Q) : bool := negb (Qle_bool b a).

Definition validatePayrollInputs (payrollInputs : PayrollInputs.t)
    (deductionInputs : DeductionInputs.t) (ytdInputs : YTDInputs.t)
    : ValidationResult.t :=
  let errors : list string := [] in
  let warnings : list string := [] in
  (* payroll inputs *)
  let errors := pushIf (Qle_bool (PayrollInputs.rate payrollInputs) 0)
    "Base rate must be greater than 0" errors in
  let errors := pushIf (Qlt_bool (PayrollInputs.straightTime payrollInputs) 0)
    "Straight time hours cannot be negative" errors in
  let errors := pushIf (Qlt_bool (PayrollInputs.overtimeHalf payrollInputs) 0)
    "Overtime hours cannot be negative" errors in
  let errors := pushIf (Qlt_bool (PayrollInputs.overtimeDouble payrollInputs) 0)
    "Double-time hours cannot be negative" errors in
  (* deduction inputs *)
  let errors := pushIf
    (Qlt_bool (DeductionInputs.unionDuesPercent deductionInputs) 0
     || Qlt_bool 100 (DeductionInputs.unionDuesPercent deductionInputs))
    "Union dues percentage must be between 0 and 100" errors in
  let errors := pushIf
    (Qlt_bool (DeductionInputs.rrspPercent deductionInputs) 0
     || Qlt_bool 100 (DeductionInputs.rrspPercent deductionInputs))
    "RRSP percentage must be between 0 and 100" errors in
  (* year-to-date inputs *)
  let errors := pushIf (Qlt_bool (YTDInputs.pensionableEarnings ytdInputs) 0)
    "YTD pensionable earnings cannot be negative" errors in
  let errors := pushIf (Qlt_bool (YTDInputs.insurableEarnings ytdInputs) 0)
    "YTD insurable earnings cannot be negative" errors in
  (* warnings *)
  let totalHours :=
    PayrollInputs.straightTime payrollInputs
    + PayrollInputs.overtimeHalf payrollInputs
    + PayrollInputs.overtimeDouble payrollInputs in
  let warnings := pushIf (Qlt_bool 84 totalHours)
    "Total hours exceed 84 per week - verify compliance with labour standards"
    warnings in
  let warnings := pushIf (Qlt_bool 18 (DeductionInputs.rrspPercent deductionInputs))
    "RRSP contribution exceeds typical 18% limit" warnings in
  {| ValidationResult.isValid := Nat.eqb (List.length errors) 0;
     ValidationResult.errors := errors;
     ValidationResult.warnings := warnings |}.

Module Allowances.
Record t : Type := Build {
  totalAmount : Q;
  taxableAmount : Q;
  nonTaxableAmount : Q;
  dailyRate : Q;
  days : Q
}.
End Allowances.

Definition calculateAllowances (perDiemDaily days : Q) (isTaxable : bool)
    : Allowances.t :=
  let totalAmount := round2 (perDiemDaily * days) in
  let taxableAmount := if isTaxable then totalAmount else 0 in
  let nonTaxableAmount := if isTaxable then 0 else totalAmount in
  {| Allowances.totalAmount := totalAmount;
     Allowances.taxableAmount := taxableAmount;
     Allowances.nonTaxableAmount := nonTaxableAmount;
     Allowances.dailyRate := perDiemDaily;
     Allowances.days := days |}.

Module YTDProjections.
Record t : Type := Build {
  projectedGross : Q;
  projectedCPP1 : Q;
  projectedCPP2 : Q;
  projectedEI : Q;
  projectedNet : Q;
  periodsRemaining : Q
}.
End YTDProjections.

Definition calculateYTDProjections (currentResults : PayrollResults.t)
    (ytdInputs : YTDInputs.t) (periodsRemaining : Q) : YTDProjections.t :=
  let gross := PayrollResults.gross currentResults in
  let deductions := PayrollResults.deductions currentResults in
  let projectedGross :=
    YTDInputs.pensionableEarnings ytdInputs
    + GrossPayBreakdown.wage gross * periodsRemaining in
  let projectedCPP1 :=
    YTDInputs.cpp1Paid ytdInputs + DeductionBreakdown.cpp1 deductions * periodsRemaining in
  let projectedCPP2 :=
    YTDInputs.cpp2Paid ytdInputs + DeductionBreakdown.cpp2 deductions * periodsRemaining in
  let projectedEI :=
    YTDInputs.eiPaid ytdInputs + DeductionBreakdown.ei deductions * periodsRemaining in
  let projectedNet := PayrollResults.net currentResults * periodsRemaining in
  {| YTDProjections.projectedGross := round2 projectedGross;
     YTDProjections.projectedCPP1 := round2 projectedCPP1;
     YTDProjections.projectedCPP2 := round2 projectedCPP2;
     YTDProjections.projectedEI := round2 projectedEI;
     YTDProjections.projectedNet := round2 projectedNet;
     YTDProjections.periodsRemaining := periodsRemaining |}.

Module EffectiveTaxRates.
Record t : Type := Build {
  totalTaxRate : Q;
  federalTaxRate : Q;
  provincialTaxRate : Q;
  cppRate : Q;
  eiRate : Q;
  totalStatutoryRate : Q
}.
End EffectiveTaxRates.

Definition calculateEffectiveTaxRates (grossWage : Q)
    (deductions : DeductionBreakdown.t) : EffectiveTaxRates.t :=
  if Qle_bool grossWage 0 then
    {| EffectiveTaxRates.totalTaxRate := 0;
       EffectiveTaxRates.federalTaxRate := 0;
       EffectiveTaxRates.provincialTaxRate := 0;
       EffectiveTaxRates.cppRate := 0;
       EffectiveTaxRates.eiRate := 0;
       EffectiveTaxRates.totalStatutoryRate := 0 |}
  else
    let federal := DeductionBreakdown.federal deductions in
    let provincial := DeductionBreakdown.provincial deductions in
    let cpp1 := DeductionBreakdown.cpp1 deductions in
    let cpp2 := DeductionBreakdown.cpp2 deductions in
    let ei := DeductionBreakdown.ei deductions in
    let totalTaxRate := round2 (((federal + provincial) / grossWage) * 100) in
    let federalTaxRate := round2 ((federal / grossWage) * 100) in
    let provincialTaxRate := round2 ((provincial / grossWage) * 100) in
    let cppRate := round2 (((cpp1 + cpp2) / grossWage) * 100) in
    let eiRate := round2 ((ei / grossWage) * 100) in
    let totalStatutoryRate :=
      round2 (((cpp1 + cpp2 + ei + federal + provincial) / grossWage) * 100) in
    {| EffectiveTaxRates.totalTaxRate := totalTaxRate;
       EffectiveTaxRates.federalTaxRate := federalTaxRate;
       EffectiveTaxRates.provincialTaxRate := provincialTaxRate;
       EffectiveTaxRates.cppRate := cppRate;
       EffectiveTaxRates.eiRate := eiRate;
       EffectiveTaxRates.totalStatutoryRate := totalStatutoryRate |}.

End Payroll.

(** ** JavaScript numbers of the rigging engine, idealised

    The reals extended with the IEEE-754 special values.  Arithmetic on
    finite values is exact (no rounding, no overflow, one zero); the special values follow the IEEE-754 rules
    ([x / 0] is an infinity with the sign of [x], [0 / 0], [Infinity -
    Infinity] and [0 * Infinity] are [NaN], every comparison with [NaN] is
    false). *)

Module JSNumber.

Local Open Scope R_scope.

Inductive num : Type :=
  | NaN
  | NegInfinity
  | PosInfinity
  | Fin (x : R).

Inductive sign : Set := Neg | Zero | Pos.

Definition Rsign (x : R) : sign :=
  if Rlt_dec 0 x then Pos else if Rlt_dec x 0 then Neg else Zero.

Definition sign_mul (a b : sign) : sign :=
  match a, b with
  | Zero, _ | _, Zero => Zero
  | Pos, Pos | Neg, Neg => Pos
  | Pos, Neg | Neg, Pos => Neg
  end.

(** The infinity of a given sign; [NaN] where IEEE-754 leaves no sign. *)
Definition infinity (s : sign) : num :=
  match s with
  | Pos => PosInfinity
  | Neg => NegInfinity
  | Zero => NaN
  end.

Definition sign_of (a : num) : sign :=
  match a with
  | NaN => Zero
  | NegInfinity => Neg
  | PosInfinity => Pos
  | Fin x => Rsign x
  end.

Definition of_nat (n : nat) : num := Fin (INR n).

Definition add (a b : num) : num :=
  match a, b with
  | NaN, _ | _, NaN => NaN
  | Fin x, Fin y => Fin (x + y)
  | PosInfinity, NegInfinity | NegInfinity, PosInfinity => NaN
  | PosInfinity, _ | _, PosInfinity => PosInfinity
  | NegInfinity, _ | _, NegInfinity => NegInfinity
  end.

Definition opp (a : num) : num :=
  match a with
  | NaN => NaN
  | NegInfinity => PosInfinity
  | PosInfinity => NegInfinity
  | Fin x => Fin (- x)
  end.

Definition sub (a b : num) : num := add a (opp b).

Definition mul (a b : num) : num :=
  match a, b with
  | NaN, _ | _, NaN => NaN
  | Fin x, Fin y => Fin (x * y)
  | _, _ => infinity (sign_mul (sign_of a) (sign_of b))
  end.

Definition div (a b : num) : num :=
  match a, b with
  | NaN, _ | _, NaN => NaN
  | Fin x, Fin y =>
      if Req_dec_T y 0 then infinity (Rsign x) else Fin (x / y)
  | Fin _, _ => Fin 0
  | _, Fin y =>
      if Req_dec_T y 0 then a else infinity (sign_mul (sign_of a) (Rsign y))
  | _, _ => NaN
  end.

(** [a <= b], [a < b], [a >= b], [a > b] *)
Definition le (a b : num) : bool :=
  match a, b with
  | NaN, _ | _, NaN => false
  | Fin x, Fin y => if Rle_dec x y then true else false
  | NegInfinity, _ | _, PosInfinity => true
  | _, _ => false
  end.

Definition lt (a b : num) : bool :=
  match a, b with
  | NaN, _ | _, NaN => false
  | Fin x, Fin y => if Rlt_dec x y then true else false
  | NegInfinity, NegInfinity | PosInfinity, PosInfinity => false
  | NegInfinity, _ | _, PosInfinity => true
  | _, _ => false
  end.

Definition ge (a b : num) : bool := le b a.
Definition gt (a b : num) : bool := lt b a.

Definition Math_abs (a : num) : num :=
  match a with
  | NaN => NaN
  | NegInfinity | PosInfinity => PosInfinity
  | Fin x => Fin (Rabs x)
  end.

Definition Math_cos (a : num) : num :=
  match a with
  | Fin x => Fin (cos x)
  | _ => NaN
  end.

Definition Math_PI : num := Fin PI.

Definition max2 (a b : num) : num :=
  match a, b with
  | NaN, _ | _, NaN => NaN
  | _, _ => if lt a b then b else a
  end.

Definition min2 (a b : num) : num :=
  match a, b with
  | NaN, _ | _, NaN => NaN
  | _, _ => if lt b a then b else a
  end.

(** [Math.max(...values)] and [Math.min(...values)] *)
Definition Math_max (values : list num) : num := fold_left max2 values NegInfinity.
Definition Math_min (values : list num) : num := fold_left min2 values PosInfinity.

(** [values.reduce((sum, v) => sum + v, 0)] *)
Definition sum (values : list num) : num := fold_left add values (Fin 0).

End JSNumber.

(** ** types/rigging.ts *)

Module RiggingInputs.
Record t : Type := Build {
  hitchType : HitchType;
  weight : JSNumber.num;    (* load weight in kg *)
  legs : nat;               (* number of sling legs *)
  angle : JSNumber.num;     (* included angle at hook in degrees *)
  cogOffset : JSNumber.num; (* centre of gravity offset in mm *)
  spacing : JSNumber.num;   (* distance between pick points in mm *)
  slingWLL : JSNumber.num   (* working load limit per sling in kg *)
}.
End RiggingInputs.

Module LoadDistribution.
Record t : Type := Build {
  legLoads : list JSNumber.num;
  maxTension : JSNumber.num;
  minTension : JSNumber.num;
  isBalanced : bool;
  imbalanceRatio : JSNumber.num
}.
End LoadDistribution.

Module AngleFactorResult.
Record t : Type := Build {
  angleFactor : JSNumber.num;
  legAngle : JSNumber.num;
  efficiency : JSNumber.num
}.
End AngleFactorResult.

(** The warning and recommendation strings of the rigging engine, by their
    template and the values interpolated into it. *)
Inductive RiggingWarning : Type :=
  | InsufficientSlingCapacity (safetyMargin : JSNumber.num)
      (* `Insufficient sling capacity. Safety margin: ${safetyMargin.toFixed(1)}%` *)
  | LowSafetyMargin
      (* 'Low safety margin - consider higher capacity slings' *)
  | AngleTooSmall (angle : JSNumber.num)
      (* `Included angle too small (${angle}°). Minimum recommended: ${MIN_ANGLE}°` *)
  | AngleTooLarge (angle : JSNumber.num)
      (* `Included angle too large (${angle}°). Maximum recommended: ${MAX_ANGLE}°` *)
  | TooManyLegs (legs : nat)
      (* `Too many legs (${legs}). Maximum supported: ${MAX_LEGS}` *)
  | WeightNotPositive
      (* 'Load weight must be greater than zero' *)
  | SlingWLLNotPositive
      (* 'Sling WLL must be greater than zero' *)
  | WideAngle
      (* 'Wide angles significantly increase sling tension - consider reducing angle' *)
  | CogOffsetExceedsHalfSpacing.
      (* 'CoG offset exceeds half the pick spacing - load may be unstable' *)

Inductive RiggingRecommendation : Type :=
  | UseMinimumWLL (minRequiredWLL : JSNumber.num)
      (* `Use slings with minimum ${minRequiredWLL.toFixed(0)} kg WLL` *)
  | ChokerReducesCapacity
      (* 'Choker hitch reduces capacity to 75% of vertical rating' *)
  | BasketDoublesCapacity.
      (* 'Basket hitch doubles capacity but requires proper load support' *)

Module SafetyAnalysis.
Record t : Type := Build {
  isWLLAdequate : bool;
  safetyMargin : JSNumber.num;
  minRequiredWLL : JSNumber.num;
  recommendedWLL : JSNumber.num;
  warnings : list RiggingWarning;
  recommendations : list RiggingRecommendation
}.
End SafetyAnalysis.

Module RiggingResults.
Record t : Type := Build {
  angleFactor : AngleFactorResult.t;
  loadDistribution : LoadDistribution.t;
  tensionPerLeg : JSNumber.num;
  forcePerLeg : JSNumber.num;
  safety : SafetyAnalysis.t;
  maxTensionKN : JSNumber.num;
  minRequiredWLL : JSNumber.num;
  safetyCheck : bool
}.
End RiggingResults.

Module RiggingConstants.
Record t : Type := Build {
  GRAVITY : JSNumber.num;
  DESIGN_FACTOR : JSNumber.num;
  MINIMUM_SAFETY_MARGIN : JSNumber.num;
  MIN_ANGLE : JSNumber.num;
  MAX_ANGLE : JSNumber.num;
  MAX_LEGS : JSNumber.num;
  HITCH_FACTORS : HitchType -> JSNumber.num
}.
End RiggingConstants.

Definition RIGGING_CONSTANTS : RiggingConstants.t :=
  {| RiggingConstants.GRAVITY := JSNumber.Fin 9.80665;
     RiggingConstants.DESIGN_FACTOR := JSNumber.Fin 1.25;
     RiggingConstants.MINIMUM_SAFETY_MARGIN := JSNumber.Fin 25;
     RiggingConstants.MIN_ANGLE := JSNumber.Fin 10;
     RiggingConstants.MAX_ANGLE := JSNumber.Fin 150;
     RiggingConstants.MAX_LEGS := JSNumber.Fin 4;
     RiggingConstants.HITCH_FACTORS := fun hitchType =>
       match hitchType with
       | vertical => JSNumber.Fin 1.0
       | choker => JSNumber.Fin 0.75
       | basket => JSNumber.Fin 2.0
       end |}%R.

(** ** utils/calculations/riggingCalculations.ts

    The engine over the idealised numbers.  What depends on rounding, on
    overflow or on the sign of zero is stated on the binary64 embedding of
    [calculateLoadDistribution] and [calculateSafetyFactors] further down. *)

Module Rigging.

Import JSNumber.
Import RiggingConstants.

Declare Scope num_scope.
Delimit Scope num_scope with num.
Local Infix "+" := add : num_scope.
Local Infix "-" := sub : num_scope.
Local Infix "*" := mul : num_scope.
Local Infix "/" := div : num_scope.
Local Infix "<=" := le : num_scope.
Local Infix "<" := lt : num_scope.
Local Infix ">=" := ge : num_scope.
Local Infix ">" := gt : num_scope.
Local Open Scope num_scope.

Definition calculateAngleFactor (includedAngle : num) : AngleFactorResult.t :=
  (* leg angle from vertical *)
  let legAngleRadians := (includedAngle / Fin 2) * (Math_PI / Fin 180) in
  let legAngleDegrees := includedAngle / Fin 2 in
  (* AF = 1 / cos(theta/2) *)
  let angleFactor := Fin 1 / Math_cos legAngleRadians in
  let efficiency := Fin 1 / angleFactor in
  {| AngleFactorResult.angleFactor := angleFactor;
     AngleFactorResult.legAngle := legAngleDegrees;
     AngleFactorResult.efficiency := efficiency |}.

(** [array[i] = v] for an index inside the array. *)
Fixpoint array_set (i : nat) (v : num) (array : list num) : list num :=
  match array, i with
  | [], _ => []
  | _ :: rest, O => v :: rest
  | x :: rest, S j => x :: array_set j v rest
  end.

(** [new Array(legs)] takes a non-negative integer length (it raises a
    RangeError on any other number), so the leg count is a [nat]; where the
    source uses it as a number it is [of_nat legs]. *)
Definition calculateLoadDistribution
    (weight : num) (legs : nat) (cogOffset spacing : num) : LoadDistribution.t :=
  let totalForceN := weight * GRAVITY RIGGING_CONSTANTS in
  (* new Array(legs).fill(1 / legs) *)
  let legLoads := repeat (Fin 1 / of_nat legs) legs in
  (* two-leg lifts with CoG offset: lever principle *)
  let legLoads :=
    if Nat.eqb legs 2 && (spacing > Fin 0) && (Math_abs cogOffset > Fin 1) then
      let distanceToLegA := spacing / Fin 2 + cogOffset in
      let distanceToLegB := spacing / Fin 2 - cogOffset in
      let totalDistance := distanceToLegA + distanceToLegB in
      let legLoads := array_set 0 (distanceToLegB / totalDistance) legLoads in
      array_set 1 (distanceToLegA / totalDistance) legLoads
    else legLoads in
  (* forces per leg *)
  let legForcesN := map (fun share => totalForceN * share) legLoads in
  let maxTension := Math_max legForcesN in
  let minTension := Math_min legForcesN in
  (* load balance *)
  let imbalanceRatio := maxTension / minTension in
  let isBalanced := imbalanceRatio <= Fin 1.1 in
  {| LoadDistribution.legLoads := legLoads;
     LoadDistribution.maxTension := maxTension;
     LoadDistribution.minTension := minTension;
     LoadDistribution.isBalanced := isBalanced;
     LoadDistribution.imbalanceRatio := imbalanceRatio |}.

Definition HitchType_eqb (a b : HitchType) : bool :=
  match a, b with
  | vertical, vertical | choker, choker | basket, basket => true
  | _, _ => false
  end.

(** [if (cond) list.push(item)] *)
Definition pushIf {A : Type} (cond : bool) (item : A) (l : list A) : list A :=
  if cond then l ++ [item] else l.

Definition calculateSafetyFactors
    (maxTensionN slingWLL : num) (hitchType : HitchType) : SafetyAnalysis.t :=
  let DESIGN_FACTOR := DESIGN_FACTOR RIGGING_CONSTANTS in
  let MINIMUM_SAFETY_MARGIN := MINIMUM_SAFETY_MARGIN RIGGING_CONSTANTS in
  (* effective WLL *)
  let hitchFactor := HITCH_FACTORS RIGGING_CONSTANTS hitchType in
  let effectiveWLLkg := slingWLL * hitchFactor in
  let effectiveWLLN := effectiveWLLkg * Fin 9.80665 in
  (* safety margin *)
  let safetyMargin := ((effectiveWLLN - maxTensionN) / maxTensionN) * Fin 100 in
  let isWLLAdequate := safetyMargin >= MINIMUM_SAFETY_MARGIN in
  (* minimum required WLL with design factor *)
  let minRequiredWLLN := maxTensionN * DESIGN_FACTOR in
  let minRequiredWLL := minRequiredWLLN / Fin 9.80665 in
  let recommendedWLL := minRequiredWLL * Fin 1.1 in
  (* warnings and recommendations *)
  let warnings : list RiggingWarning := [] in
  let recommendations : list RiggingRecommendation := [] in
  let warnings :=
    pushIf (negb isWLLAdequate) (InsufficientSlingCapacity safetyMargin) warnings in
  let recommendations :=
    pushIf (negb isWLLAdequate) (UseMinimumWLL minRequiredWLL) recommendations in
  let warnings := pushIf (safetyMargin < Fin 50) LowSafetyMargin warnings in
  let recommendations :=
    pushIf (HitchType_eqb hitchType choker) ChokerReducesCapacity recommendations in
  let recommendations :=
    pushIf (HitchType_eqb hitchType basket) BasketDoublesCapacity recommendations in
  {| SafetyAnalysis.isWLLAdequate := isWLLAdequate;
     SafetyAnalysis.safetyMargin := safetyMargin;
     SafetyAnalysis.minRequiredWLL := minRequiredWLL;
     SafetyAnalysis.recommendedWLL := recommendedWLL;
     SafetyAnalysis.warnings := warnings;
     SafetyAnalysis.recommendations := recommendations |}.

Module GeometryValidation.
Record t : Type := Build {
  isValid : bool;
  warnings : list RiggingWarning
}.
End GeometryValidation.

Definition validateRiggingGeometry (inputs : RiggingInputs.t) : GeometryValidation.t :=
  let MIN_ANGLE := MIN_ANGLE RIGGING_CONSTANTS in
  let MAX_ANGLE := MAX_ANGLE RIGGING_CONSTANTS in
  let MAX_LEGS := MAX_LEGS RIGGING_CONSTANTS in
  let angle := RiggingInputs.angle inputs in
  let warnings : list RiggingWarning := [] in
  let isValid := true in
  (* angle range *)
  let warnings := pushIf (angle < MIN_ANGLE) (AngleTooSmall angle) warnings in
  let warnings := pushIf (angle > MAX_ANGLE) (AngleTooLarge angle) warnings in
  (* number of legs *)
  let warnings :=
    pushIf (of_nat (RiggingInputs.legs inputs) > MAX_LEGS)
      (TooManyLegs (RiggingInputs.legs inputs)) warnings in
  (* weight *)
  let warnings :=
    pushIf (RiggingInputs.weight inputs <= Fin 0) WeightNotPositive warnings in
  (* sling WLL *)
  let warnings :=
    pushIf (RiggingInputs.slingWLL inputs <= Fin 0) SlingWLLNotPositive warnings in
  (* geometry-specific warnings *)
  let warnings := pushIf (angle > Fin 120) WideAngle warnings in
  let warnings :=
    pushIf (Math_abs (RiggingInputs.cogOffset inputs)
            > RiggingInputs.spacing inputs / Fin 2)
      CogOffsetExceedsHalfSpacing warnings in
  {| GeometryValidation.isValid := isValid;
     GeometryValidation.warnings := warnings |}.

Definition calculateRiggingAnalysis (inputs : RiggingInputs.t) : RiggingResults.t :=
  let geometryValidation := validateRiggingGeometry inputs in
  let angleFactor := calculateAngleFactor (RiggingInputs.angle inputs) in
  let loadDistribution :=
    calculateLoadDistribution (RiggingInputs.weight inputs)
      (RiggingInputs.legs inputs) (RiggingInputs.cogOffset inputs)
      (RiggingInputs.spacing inputs) in
  (* angle factor applied to the tensions *)
  let maxTensionWithAngle :=
    LoadDistribution.maxTension loadDistribution
    * AngleFactorResult.angleFactor angleFactor in
  let safety :=
    calculateSafetyFactors maxTensionWithAngle
      (RiggingInputs.slingWLL inputs) (RiggingInputs.hitchType inputs) in
  (* safety.warnings.push(...geometryValidation.warnings) *)
  let safety :=
    {| SafetyAnalysis.isWLLAdequate := SafetyAnalysis.isWLLAdequate safety;
       SafetyAnalysis.safetyMargin := SafetyAnalysis.safetyMargin safety;
       SafetyAnalysis.minRequiredWLL := SafetyAnalysis.minRequiredWLL safety;
       SafetyAnalysis.recommendedWLL := SafetyAnalysis.recommendedWLL safety;
       SafetyAnalysis.warnings :=
         SafetyAnalysis.warnings safety ++ GeometryValidation.warnings geometryValidation;
       SafetyAnalysis.recommendations := SafetyAnalysis.recommendations safety |} in
  (* summary values *)
  let tensionPerLeg := maxTensionWithAngle / Fin 1000 in
  let forcePerLeg := maxTensionWithAngle / Fin 1000 in
  let maxTensionKN := maxTensionWithAngle / Fin 1000 in
  let safetyCheck :=
    SafetyAnalysis.isWLLAdequate safety && GeometryValidation.isValid geometryValidation in
  {| RiggingResults.angleFactor := angleFactor;
     RiggingResults.loadDistribution := loadDistribution;
     RiggingResults.tensionPerLeg := tensionPerLeg;
     RiggingResults.forcePerLeg := forcePerLeg;
     RiggingResults.safety := safety;
     RiggingResults.maxTensionKN := maxTensionKN;
     RiggingResults.minRequiredWLL := SafetyAnalysis.minRequiredWLL safety;
     RiggingResults.safetyCheck := safetyCheck |}.

Module CenterOfGravityEffects.
Record t : Type := Build {
  momentArm : num;
  additionalLoad : num;
  loadShiftPercentage : num
}.
End CenterOfGravityEffects.

Definition calculateCenterOfGravityEffects (weight cogOffset spacing : num)
    : CenterOfGravityEffects.t :=
  if spacing <= Fin 0 then
    {| CenterOfGravityEffects.momentArm := Fin 0;
       CenterOfGravityEffects.additionalLoad := Fin 0;
       CenterOfGravityEffects.loadShiftPercentage := Fin 0 |}
  else
    let momentArm := Math_abs cogOffset in
    let leverRatio := momentArm / (spacing / Fin 2) in
    let loadShiftPercentage := (leverRatio / (Fin 1 + leverRatio)) * Fin 100 in
    let additionalLoad := weight * leverRatio / Fin 2 in
    {| CenterOfGravityEffects.momentArm := momentArm;
       CenterOfGravityEffects.additionalLoad := additionalLoad;
       CenterOfGravityEffects.loadShiftPercentage := loadShiftPercentage |}.

Module SlingEfficiency.
Record t : Type := Build {
  hitchEfficiency : num;
  angleEfficiency : num;
  overallEfficiency : num;
  capacityReduction : num
}.
End SlingEfficiency.

Definition calculateSlingEfficiency (hitchType : HitchType) (angle : num)
    : SlingEfficiency.t :=
  let angleFactor := calculateAngleFactor angle in
  let hitchFactor := HITCH_FACTORS RIGGING_CONSTANTS hitchType in
  let overallEfficiency := hitchFactor * AngleFactorResult.efficiency angleFactor in
  {| SlingEfficiency.hitchEfficiency := hitchFactor;
     SlingEfficiency.angleEfficiency := AngleFactorResult.efficiency angleFactor;
     SlingEfficiency.overallEfficiency := overallEfficiency;
     SlingEfficiency.capacityReduction := (Fin 1 - overallEfficiency) * Fin 100 |}.

End Rigging.

(** ** IEEE-754 binary64

    The JavaScript number type with its rounding: every arithmetic operation
    returns the double nearest to the exact result, ties to the even
    significand, with gradual underflow, overflow to the infinities, two
    zeros and [NaN].  Rounding is defined on the reals: [rnd x] is the
    nearest multiple of [2^cexp x], where [cexp x] is the exponent of the
    last bit of a 53-bit significand at the magnitude of [x], and never
    below [-1074]. *)

Module Binary64.
Local Open Scope R_scope.

Definition bpow (e : Z) : R := powerRZ 2 e.

Definition ZnearestE (x : R) : Z :=
  let f := Zfloor x in
  if Rlt_dec (x - IZR f) (1 / 2) then f
  else if Rlt_dec (1 / 2) (x - IZR f) then (f + 1)%Z
  else if Z.even f then f else (f + 1)%Z.

Definition mag (x : R) : Z := (Zfloor (ln (Rabs x) / ln 2) + 1)%Z.

Definition cexp (x : R) : Z := Z.max (mag x - 53) (-1074).

Definition rnd (x : R) : R :=
  IZR (ZnearestE (x * bpow (- cexp x))) * bpow (cexp x).

Definition format (x : R) : Prop :=
  exists m e : Z, x = IZR m * bpow e /\ (Z.abs m < 2 ^ 53)%Z /\ (-1074 <= e)%Z.


(** The binary64 values: [Fin x] is a finite number other than zero, [x] its
    exact value; zero and the infinities carry the sign bit ([true] for the
    negative one). *)
Inductive double : Type :=
  | NaN
  | Inf (neg : bool)
  | Zero (neg : bool)
  | Fin (x : R).

Definition negative (r : R) : bool := if Rlt_dec r 0 then true else false.

(** The double nearest to a real number: overflow gives an infinity,
    underflow a zero, both with the sign of the exact value. *)
Definition round (r : R) : double :=
  let y := rnd r in
  if Rle_dec (bpow 1024) (Rabs y) then Inf (negative r)
  else if Req_dec_T y 0 then Zero (negative r)
  else Fin y.

Definition sign (a : double) : bool :=
  match a with
  | NaN => false
  | Inf s | Zero s => s
  | Fin x => negative x
  end.

(** The value of a finite double. *)
Definition val (a : double) : R :=
  match a with
  | Fin x => x
  | _ => 0
  end.

Definition finite (a : double) : Prop :=
  match a with
  | Zero _ | Fin _ => True
  | NaN | Inf _ => False
  end.

(** The doubles that are values of the format: a finite number is non-zero,
    has a 53-bit significand and lies below [2^1024]. *)
Definition binary64 (a : double) : Prop :=
  match a with
  | Fin x => x <> 0 /\ format x /\ Rabs x < bpow 1024
  | _ => True
  end.

Definition opp (a : double) : double :=
  match a with
  | NaN => NaN
  | Inf s => Inf (negb s)
  | Zero s => Zero (negb s)
  | Fin x => Fin (- x)
  end.

Definition add (a b : double) : double :=
  match a, b with
  | NaN, _ | _, NaN => NaN
  | Inf s, Inf s' => if Bool.eqb s s' then a else NaN
  | Inf _, _ => a
  | _, Inf _ => b
  | Zero s, Zero s' => Zero (s && s')
  | Zero _, Fin _ => b
  | Fin _, Zero _ => a
  | Fin x, Fin y => round (x + y)
  end.

Definition sub (a b : double) : double := add a (opp b).

Definition mul (a b : double) : double :=
  match a, b with
  | NaN, _ | _, NaN => NaN
  | Inf _, Zero _ | Zero _, Inf _ => NaN
  | Fin x, Fin y => round (x * y)
  | Inf _, _ | _, Inf _ => Inf (xorb (sign a) (sign b))
  | _, _ => Zero (xorb (sign a) (sign b))
  end.

Definition div (a b : double) : double :=
  match a, b with
  | NaN, _ | _, NaN => NaN
  | Inf _, Inf _ | Zero _, Zero _ => NaN
  | Fin x, Fin y => round (x / y)
  | Inf _, _ | _, Zero _ => Inf (xorb (sign a) (sign b))
  | _, _ => Zero (xorb (sign a) (sign b))
  end.

(** [a < b] and [a <= b]: false as soon as one side is [NaN]; the two zeros
    compare equal. *)
Definition lt (a b : double) : bool :=
  match a, b with
  | NaN, _ | _, NaN => false
  | _, Inf true => false
  | Inf true, _ => true
  | Inf false, _ => false
  | _, Inf false => true
  | _, _ => if Rlt_dec (val a) (val b) then true else false
  end.

Definition le (a b : double) : bool :=
  match a, b with
  | NaN, _ | _, NaN => false
  | Inf true, _ => true
  | _, Inf false => true
  | _, Inf true => false
  | Inf false, _ => false
  | _, _ => if Rle_dec (val a) (val b) then true else false
  end.

Definition gt (a b : double) : bool := lt b a.
Definition ge (a b : double) : bool := le b a.

Definition Math_abs (a : double) : double :=
  match a with
  | NaN => NaN
  | Inf _ => Inf false
  | Zero _ => Zero false
  | Fin x => Fin (Rabs x)
  end.

(** One step of [Math.max]: [NaN] is absorbing and [+0] is above [-0]. *)
Definition max2 (highest number : double) : double :=
  match highest, number with
  | NaN, _ | _, NaN => NaN
  | Zero true, Zero false => number
  | _, _ => if lt highest number then number else highest
  end.

Definition min2 (lowest number : double) : double :=
  match lowest, number with
  | NaN, _ | _, NaN => NaN
  | Zero false, Zero true => number
  | _, _ => if lt number lowest then number else lowest
  end.

(** [Math.max(...values)] and [Math.min(...values)] *)
Definition Math_max (values : list double) : double :=
  fold_left max2 values (Inf true).

Definition Math_min (values : list double) : double :=
  fold_left min2 values (Inf false).

(** A non-negative integer as a number. *)
Definition of_nat (n : nat) : double := round (INR n).

(** [values.reduce((sum, load) => sum + load, 0)] *)
Definition sum (values : list double) : double :=
  fold_left add values (Zero false).

End Binary64.

(** ** utils/calculations/riggingCalculations.ts on binary64

    [calculateLoadDistribution] and [calculateSafetyFactors] once more, this
    time with every arithmetic operation rounded as the JavaScript engine
    rounds it; a decimal literal of the source is the double nearest to it. *)

Module RiggingBinary64.

Import Binary64.

Module LoadDistribution.
Record t : Type := Build {
  legLoads : list double;
  maxTension : double;
  minTension : double;
  isBalanced : bool;
  imbalanceRatio : double
}.
End LoadDistribution.

Inductive Warning : Type :=
  | InsufficientSlingCapacity (safetyMargin : double)
  | LowSafetyMargin.

Inductive Recommendation : Type :=
  | UseMinimumWLL (minRequiredWLL : double)
  | ChokerReducesCapacity
  | BasketDoublesCapacity.

Module SafetyAnalysis.
Record t : Type := Build {
  isWLLAdequate : bool;
  safetyMargin : double;
  minRequiredWLL : double;
  recommendedWLL : double;
  warnings : list Warning;
  recommendations : list Recommendation
}.
End SafetyAnalysis.

Definition GRAVITY : double := round 9.80665.
Definition DESIGN_FACTOR : double := round 1.25.
Definition MINIMUM_SAFETY_MARGIN : double := round 25.

Definition HITCH_FACTORS (hitchType : HitchType) : double :=
  match hitchType with
  | vertical => round 1.0
  | choker => round 0.75
  | basket => round 2.0
  end.

Declare Scope double_scope.
Delimit Scope double_scope with double.
Local Infix "+" := add : double_scope.
Local Infix "-" := sub : double_scope.
Local Infix "*" := mul : double_scope.
Local Infix "/" := div : double_scope.
Local Infix "<=" := le : double_scope.
Local Infix "<" := lt : double_scope.
Local Infix ">=" := ge : double_scope.
Local Infix ">" := gt : double_scope.
Local Open Scope double_scope.

(** [array[i] = v] for an index inside the array. *)
Fixpoint array_set (i : nat) (v : double) (array : list double) : list double :=
  match array, i with
  | [], _ => []
  | _ :: rest, O => v :: rest
  | x :: rest, S j => x :: array_set j v rest
  end.

Definition calculateLoadDistribution
    (weight : double) (legs : nat) (cogOffset spacing : double)
    : LoadDistribution.t :=
  let totalForceN := weight * GRAVITY in
  (* new Array(legs).fill(1 / legs) *)
  let legLoads := repeat (round 1 / of_nat legs) legs in
  (* two-leg lifts with CoG offset: lever principle *)
  let legLoads :=
    if Nat.eqb legs 2 && (spacing > Zero false) && (Math_abs cogOffset > round 1) then
      let distanceToLegA := spacing / round 2 + cogOffset in
      let distanceToLegB := spacing / round 2 - cogOffset in
      let totalDistance := distanceToLegA + distanceToLegB in
      let legLoads := array_set 0 (distanceToLegB / totalDistance) legLoads in
      array_set 1 (distanceToLegA / totalDistance) legLoads
    else legLoads in
  (* forces per leg *)
  let legForcesN := map (fun share => totalForceN * share) legLoads in
  let maxTension := Math_max legForcesN in
  let minTension := Math_min legForcesN in
  (* load balance *)
  let imbalanceRatio := maxTension / minTension in
  let isBalanced := imbalanceRatio <= round 1.1 in
  {| LoadDistribution.legLoads := legLoads;
     LoadDistribution.maxTension := maxTension;
     LoadDistribution.minTension := minTension;
     LoadDistribution.isBalanced := isBalanced;
     LoadDistribution.imbalanceRatio := imbalanceRatio |}.

Definition HitchType_eqb (a b : HitchType) : bool :=
  match a, b with
  | vertical, vertical | choker, choker | basket, basket => true
  | _, _ => false
  end.

(** [if (cond) list.push(item)] *)
Definition pushIf {A : Type} (cond : bool) (item : A) (l : list A) : list A :=
  if cond then l ++ [item] else l.

Definition calculateSafetyFactors
    (maxTensionN slingWLL : double) (hitchType : HitchType) : SafetyAnalysis.t :=
  (* effective WLL *)
  let hitchFactor := HITCH_FACTORS hitchType in
  let effectiveWLLkg := slingWLL * hitchFactor in
  let effectiveWLLN := effectiveWLLkg * round 9.80665 in
  (* safety margin *)
  let safetyMargin := ((effectiveWLLN - maxTensionN) / maxTensionN) * round 100 in
  let isWLLAdequate := safetyMargin >= MINIMUM_SAFETY_MARGIN in
  (* minimum required WLL with design factor *)
  let minRequiredWLLN := maxTensionN * DESIGN_FACTOR in
  let minRequiredWLL := minRequiredWLLN / round 9.80665 in
  let recommendedWLL := minRequiredWLL * round 1.1 in
  (* warnings and recommendations *)
  let warnings : list Warning := [] in
  let recommendations : list Recommendation := [] in
  let warnings :=
    pushIf (negb isWLLAdequate) (InsufficientSlingCapacity safetyMargin) warnings in
  let recommendations :=
    pushIf (negb isWLLAdequate) (UseMinimumWLL minRequiredWLL) recommendations in
  let warnings := pushIf (safetyMargin < round 50) LowSafetyMargin warnings in
  let recommendations :=
    pushIf (HitchType_eqb hitchType choker) ChokerReducesCapacity recommendations in
  let recommendations :=
    pushIf (HitchType_eqb hitchType basket) BasketDoublesCapacity recommendations in
  {| SafetyAnalysis.isWLLAdequate := isWLLAdequate;
     SafetyAnalysis.safetyMargin := safetyMargin;
     SafetyAnalysis.minRequiredWLL := minRequiredWLL;
     SafetyAnalysis.recommendedWLL := recommendedWLL;
     SafetyAnalysis.warnings := warnings;
     SafetyAnalysis.recommendations := recommendations |}.

(** The inputs of implicit claim on an unstable lift: a positive weight and
    spacing and the centre of gravity beyond leg B and more than 1 mm off
    centre, as the code compares them. *)
Definition cogOutsidePickPoints (weight cogOffset spacing : double) : bool :=
  (gt weight (Zero false) && gt spacing (Zero false)
   && gt cogOffset (div spacing (round 2)) && gt cogOffset (round 1))%bool.

(** The inputs of the lever branch for which the shares are conserved: an
    offset of at most [1e9] times the spacing, both doubles below [1e299]. *)
Definition leverInputsInRange (cogOffset spacing : double) : Prop :=
  match cogOffset, spacing with
  | Fin c, Fin s =>
      format c /\ format s /\
      (Rabs c <= 1e9 * s)%R /\ (Rabs c <= 1e299)%R /\ (s <= 1e299)%R
  | _, _ => False
  end.

End RiggingBinary64.

(** ** Inputs of the test suites, used as concrete inputs below *)

Module Samples.

Definition samplePayrollInputs : PayrollInputs.t :=
  {| PayrollInputs.rate := 60;
     PayrollInputs.straightTime := 40;
     PayrollInputs.overtimeHalf := 8;
     PayrollInputs.overtimeDouble := 0;
     PayrollInputs.shiftPremium := 1.5;
     PayrollInputs.travelHours := 0;
     PayrollInputs.travelRate := 0;
     PayrollInputs.perDiem := 150;
     PayrollInputs.days := 5;
     PayrollInputs.payDate := "2025-01-15";
     PayrollInputs.frequency := weekly;
     PayrollInputs.province := AB |}%Q.

Definition sampleDeductionInputs : DeductionInputs.t :=
  {| DeductionInputs.unionDuesPercent := 3.0;
     DeductionInputs.rrspPercent := 5.0;
     DeductionInputs.rrspAtSource := true;
     DeductionInputs.otherDeductions := 50 |}%Q.

Definition sampleYTDInputs : YTDInputs.t :=
  {| YTDInputs.pensionableEarnings := 0;
     YTDInputs.cpp1Paid := 0;
     YTDInputs.cpp2Paid := 0;
     YTDInputs.insurableEarnings := 0;
     YTDInputs.eiPaid := 0 |}%Q.

(** [{ ...sampleYTDInputs, cpp1Paid: -1 }] *)
Definition negativePaidYTDInputs : YTDInputs.t :=
  {| YTDInputs.pensionableEarnings := 0;
     YTDInputs.cpp1Paid := -1;
     YTDInputs.cpp2Paid := 0;
     YTDInputs.insurableEarnings := 0;
     YTDInputs.eiPaid := 0 |}%Q.

End Samples.

(** ** The input condition of [validatePayrollInputs], in the words of the
    specification *)

Module InputRanges.

Local Open Scope Q_scope.

(** Every hours field of [PayrollInputs] and every year-to-date accumulator
    of [YTDInputs], as the specification words the condition. *)
Definition allInputsInRange (p : PayrollInputs.t) (d : DeductionInputs.t)
    (y : YTDInputs.t) : Prop :=
  0 < PayrollInputs.rate p
  /\ (0 <= PayrollInputs.straightTime p
      /\ 0 <= PayrollInputs.overtimeHalf p
      /\ 0 <= PayrollInputs.overtimeDouble p
      /\ 0 <= PayrollInputs.travelHours p)
  /\ (0 <= DeductionInputs.unionDuesPercent d /\ DeductionInputs.unionDuesPercent d <= 100)
  /\ (0 <= DeductionInputs.rrspPercent d /\ DeductionInputs.rrspPercent d <= 100)
  /\ (0 <= YTDInputs.pensionableEarnings y
      /\ 0 <= YTDInputs.cpp1Paid y
      /\ 0 <= YTDInputs.cpp2Paid y
      /\ 0 <= YTDInputs.insurableEarnings y
      /\ 0 <= YTDInputs.eiPaid y).

End InputRanges.

(** * Properties of the tax engine *)

Module TaxProperties.

Import Tax.
Local Open Scope Q_scope.

Lemma Math_round_comp (x y : Q) : x == y -> Math_round x = Math_round y.
Proof. intros H. unfold Math_round. now rewrite H. Qed.

Lemma round2_comp (x y : Q) : x == y -> round2 x == round2 y.
Proof.
  intros H. unfold round2.
  rewrite (Math_round_comp (x * 100) (y * 100)).
  - reflexivity.
  - now rewrite H.
Qed.

Lemma round2_nonneg (x : Q) : 0 <= x -> 0 <= round2 x.
Proof.
  intros H. unfold round2, Math_round.
  assert (Hz : (0 <= Qfloor (x * 100 + 0.5))%Z).
  { change 0%Z with (Qfloor 0). apply Qfloor_resp_le. lra. }
  assert (H0 : 0 <= inject_Z (Qfloor (x * 100 + 0.5))).
  { change 0 with (inject_Z 0). rewrite <- Zle_Qle. exact Hz. }
  unfold Qdiv. apply Qmult_le_0_compat; [exact H0 | discriminate].
Qed.

Lemma round2_0 (x : Q) : x == 0 -> round2 x == 0.
Proof. intros H. rewrite (round2_comp x 0 H). reflexivity. Qed.

(** Names every [Qmax] and [Qmin] of the goal by a variable that carries its
    specification, which leaves linear arithmetic. *)
Ltac qminmax_step a b spec op :=
  let m := fresh "m" in
  let H := fresh "Hm" in
  pose proof (spec a b) as H;
  generalize dependent (op a b); intros m; intros.

Ltac qminmax :=
  repeat match goal with
  | |- context [Qmax ?a ?b] => qminmax_step a b Q.max_spec Qmax
  | |- context [Qmin ?a ?b] => qminmax_step a b Q.min_spec Qmin
  | _ : context [Qmax ?a ?b] |- _ => qminmax_step a b Q.max_spec Qmax
  | _ : context [Qmin ?a ?b] |- _ => qminmax_step a b Q.min_spec Qmin
  end.

Ltac tax_constants :=
  cbn [TaxConstants.YMPE TaxConstants.YAMPE TaxConstants.CPP_RATE
       TaxConstants.CPP2_RATE TaxConstants.CPP_BASIC_EXEMPTION
       TaxConstants.EI_MIE TaxConstants.EI_RATE TAX_CONSTANTS_2025
       CPPResult.cpp1 CPPResult.cpp2 EIResult.ei].

(** The per-period amounts behind each contribution. *)
Lemma cpp1_eq (e ytd p : Q) :
  CPPResult.cpp1 (calculateCPP e ytd p)
  = round2 (CPPResult.pensionableEarnings (calculateCPP e ytd p) * 0.0595).
Proof. reflexivity. Qed.

Lemma cpp2_eq (e ytd p : Q) :
  CPPResult.cpp2 (calculateCPP e ytd p)
  = round2 (CPPResult.cpp2Base (calculateCPP e ytd p) * 0.04).
Proof. reflexivity. Qed.

Lemma ei_eq (e ytd p : Q) :
  EIResult.ei (calculateEI e ytd p)
  = round2 (EIResult.insurableEarnings (calculateEI e ytd p) * 0.0164).
Proof. reflexivity. Qed.

Lemma cpp_bases_nonneg (e ytd p : Q) :
  0 <= CPPResult.pensionableEarnings (calculateCPP e ytd p)
  /\ 0 <= CPPResult.cpp2Base (calculateCPP e ytd p).
Proof.
  unfold calculateCPP.
  cbn [CPPResult.pensionableEarnings CPPResult.cpp2Base]. tax_constants.
  generalize (3500 / p); intros ex.
  destruct (Qlt_le_dec 71300 ytd); split; qminmax; lra.
Qed.

Lemma ei_base_nonneg (e ytd p : Q) :
  0 <= EIResult.insurableEarnings (calculateEI e ytd p).
Proof.
  unfold calculateEI. cbn [EIResult.insurableEarnings]. tax_constants.
  qminmax; lra.
Qed.

(** C1, the claim as stated, fails: with a negative year-to-date value the
    annual room grows beyond its value at 0.  For monthly earnings of 80000
    and a year-to-date value of -10000, each of cpp1, cpp2 and ei differs
    from its value at a year-to-date value of 0. *)
Lemma C1_negative_ytd_changes_contributions :
  (-10000 < 0 /\ 0 < 12)
  /\ CPPResult.cpp1 (calculateCPP 80000 (-10000) 12) == 4629.10
  /\ CPPResult.cpp1 (calculateCPP 80000 0 12) == 4034.10
  /\ CPPResult.cpp2 (calculateCPP 80000 (-10000) 12) == 0
  /\ CPPResult.cpp2 (calculateCPP 80000 0 12) == 348
  /\ EIResult.ei (calculateEI 80000 (-10000) 12) == 1241.48
  /\ EIResult.ei (calculateEI 80000 0 12) == 1077.48
  /\ ~ (CPPResult.cpp1 (calculateCPP 80000 (-10000) 12)
        == CPPResult.cpp1 (calculateCPP 80000 0 12)
        /\ CPPResult.cpp2 (calculateCPP 80000 (-10000) 12)
           == CPPResult.cpp2 (calculateCPP 80000 0 12)
        /\ EIResult.ei (calculateEI 80000 (-10000) 12)
           == EIResult.ei (calculateEI 80000 0 12)).
Proof.
  repeat split; try (vm_compute; reflexivity).
  intros [H _]. vm_compute in H. discriminate H.
Qed.

(** C1, amended: contributions are never negative, and a negative
    year-to-date value gives the contributions of a year-to-date value of 0
    as long as the earnings of the period fit in the annual room at 0:
    cpp1 when the earnings less the per-period exemption are at most
    YMPE - CPP_BASIC_EXEMPTION, cpp2 when the earnings are at most YMPE, ei
    when the earnings are at most EI_MIE. *)
Theorem C1_negative_ytd_within_room (e ytd p : Q) :
  0 < p -> ytd < 0 ->
  (0 <= CPPResult.cpp1 (calculateCPP e ytd p)
   /\ 0 <= CPPResult.cpp2 (calculateCPP e ytd p)
   /\ 0 <= EIResult.ei (calculateEI e ytd p))
  /\ (e - TaxConstants.CPP_BASIC_EXEMPTION TAX_CONSTANTS_2025 / p
        <= TaxConstants.YMPE TAX_CONSTANTS_2025
           - TaxConstants.CPP_BASIC_EXEMPTION TAX_CONSTANTS_2025 ->
      CPPResult.cpp1 (calculateCPP e ytd p) == CPPResult.cpp1 (calculateCPP e 0 p))
  /\ (e <= TaxConstants.YMPE TAX_CONSTANTS_2025 ->
      CPPResult.cpp2 (calculateCPP e ytd p) == CPPResult.cpp2 (calculateCPP e 0 p))
  /\ (e <= TaxConstants.EI_MIE TAX_CONSTANTS_2025 ->
      EIResult.ei (calculateEI e ytd p) == EIResult.ei (calculateEI e 0 p)).
Proof.
  intros Hp Hy. split; [|split; [|split]].
  - rewrite cpp1_eq, cpp2_eq, ei_eq.
    destruct (cpp_bases_nonneg e ytd p) as [H1 H2].
    pose proof (ei_base_nonneg e ytd p) as H3.
    repeat split; apply round2_nonneg; lra.
  - tax_constants. intros He. unfold calculateCPP. tax_constants.
    apply round2_comp.
    assert (Hex : 0 < 3500 / p) by (apply Qlt_shift_div_l; lra).
    revert He Hex. generalize (3500 / p); intros ex He Hex.
    qminmax; lra.
  - tax_constants. intros He. unfold calculateCPP. tax_constants.
    apply round2_comp.
    destruct (Qlt_le_dec 71300 ytd); destruct (Qlt_le_dec 71300 0);
      qminmax; lra.
  - tax_constants. intros He. unfold calculateEI. tax_constants.
    apply round2_comp. qminmax; lra.
Qed.

(** The amended C1 at weekly earnings of 5000 and a year-to-date value of -1000. *)
Lemma C1_negative_ytd_within_room_witness :
  (0 <= CPPResult.cpp1 (calculateCPP 5000 (-1000) 52)
   /\ 0 <= CPPResult.cpp2 (calculateCPP 5000 (-1000) 52)
   /\ 0 <= EIResult.ei (calculateEI 5000 (-1000) 52))
  /\ (5000 - TaxConstants.CPP_BASIC_EXEMPTION TAX_CONSTANTS_2025 / 52
        <= TaxConstants.YMPE TAX_CONSTANTS_2025
           - TaxConstants.CPP_BASIC_EXEMPTION TAX_CONSTANTS_2025 ->
      CPPResult.cpp1 (calculateCPP 5000 (-1000) 52)
      == CPPResult.cpp1 (calculateCPP 5000 0 52))
  /\ (5000 <= TaxConstants.YMPE TAX_CONSTANTS_2025 ->
      CPPResult.cpp2 (calculateCPP 5000 (-1000) 52)
      == CPPResult.cpp2 (calculateCPP 5000 0 52))
  /\ (5000 <= TaxConstants.EI_MIE TAX_CONSTANTS_2025 ->
      EIResult.ei (calculateEI 5000 (-1000) 52)
      == EIResult.ei (calculateEI 5000 0 52)).
Proof.
  apply (C1_negative_ytd_within_room 5000 (-1000) 52); reflexivity.
Defined.

(** C5: for taxable income 3000 per weekly period in Alberta, the pay date
    2025-07-15 gives strictly less federal tax and strictly less provincial
    tax than the pay date 2025-01-15; the July and January rate tables agree
    beyond their first entry, the rate of the lowest bracket, which is lower
    in July. *)
Theorem C5_july_tax_below_january :
  (TaxResult.federal (calculateIncomeTax 3000 "2025-07-15" AB 52)
     < TaxResult.federal (calculateIncomeTax 3000 "2025-01-15" AB 52)
   /\ TaxResult.provincial (calculateIncomeTax 3000 "2025-07-15" AB 52)
     < TaxResult.provincial (calculateIncomeTax 3000 "2025-01-15" AB 52))
  /\ (tl (TaxConstants.FEDERAL_RATES_JUL TAX_CONSTANTS_2025)
       = tl (TaxConstants.FEDERAL_RATES_JAN TAX_CONSTANTS_2025)
      /\ tl (TaxConstants.AB_RATES_JUL TAX_CONSTANTS_2025)
         = tl (TaxConstants.AB_RATES_JAN TAX_CONSTANTS_2025))
  /\ (nth 0 (TaxConstants.FEDERAL_RATES_JUL TAX_CONSTANTS_2025) 0
       < nth 0 (TaxConstants.FEDERAL_RATES_JAN TAX_CONSTANTS_2025) 0
      /\ nth 0 (TaxConstants.AB_RATES_JUL TAX_CONSTANTS_2025) 0
         < nth 0 (TaxConstants.AB_RATES_JAN TAX_CONSTANTS_2025) 0).
Proof.
  split; [split; vm_compute; reflexivity |].
  split; [split; reflexivity |].
  split; vm_compute; reflexivity.
Qed.

(** The withheld amounts of that scenario. *)
Lemma scenario5_values :
  TaxResult.federal (calculateIncomeTax 3000 "2025-01-15" AB 52) == 547.18
  /\ TaxResult.provincial (calculateIncomeTax 3000 "2025-01-15" AB 52) == 258.90
  /\ TaxResult.federal (calculateIncomeTax 3000 "2025-07-15" AB 52) == 539.53
  /\ TaxResult.provincial (calculateIncomeTax 3000 "2025-07-15" AB 52) == 229.92.
Proof. repeat split; vm_compute; reflexivity. Qed.

(** C6: once the year-to-date pensionable earnings reach YMPE less the basic
    exemption, calculateCPP returns cpp1 = 0 whatever the earnings of the
    period are. *)
Theorem C6_cpp1_ceiling (pensionableEarnings ytdPensionable periodsPerYear : Q) :
  0 < periodsPerYear ->
  TaxConstants.YMPE TAX_CONSTANTS_2025
    - TaxConstants.CPP_BASIC_EXEMPTION TAX_CONSTANTS_2025 <= ytdPensionable ->
  CPPResult.cpp1 (calculateCPP pensionableEarnings ytdPensionable periodsPerYear) == 0.
Proof.
  tax_constants. intros Hp Hy. unfold calculateCPP. tax_constants.
  apply round2_0.
  generalize (3500 / periodsPerYear); intros ex.
  qminmax; lra.
Qed.

(** C6 at the input of the test suite: earnings 5000, year-to-date 67800, weekly. *)
Lemma C6_cpp1_ceiling_witness :
  CPPResult.cpp1 (calculateCPP 5000 67800 52) == 0.
Proof.
  apply (C6_cpp1_ceiling 5000 67800 52).
  - reflexivity.
  - vm_compute. discriminate.
Defined.

End TaxProperties.

(** * Properties of the payroll orchestrator *)

Module PayrollProperties.

Import Payroll.
Local Open Scope Q_scope.

Lemma pushIf_nil (cond : bool) (message : string) (l : list string) :
  pushIf cond message l = [] <-> cond = false /\ l = [].
Proof.
  unfold pushIf. destruct cond.
  - split.
    + intros H. destruct l; discriminate H.
    + intros [H _]. discriminate H.
  - split; [intros H; split; [reflexivity | exact H] | intros [_ H]; exact H].
Qed.

Lemma length_eqb_0 (l : list string) : Nat.eqb (List.length l) 0 = true <-> l = [].
Proof. destruct l; simpl; split; intros H; try reflexivity; discriminate H. Qed.

Lemma Qle_bool_false (a b : Q) : Qle_bool a b = false <-> b < a.
Proof.
  rewrite <- not_true_iff_false, Qle_bool_iff. split.
  - apply Qnot_le_lt.
  - apply Qlt_not_le.
Qed.

Lemma Qlt_bool_false (a b : Q) : Qlt_bool a b = false <-> b <= a.
Proof. unfold Qlt_bool. rewrite negb_false_iff. apply Qle_bool_iff. Qed.

Lemma Qlt_bool_true (a b : Q) : Qlt_bool a b = true <-> a < b.
Proof. unfold Qlt_bool. rewrite negb_true_iff. apply Qle_bool_false. Qed.

(** [isValid] is [errors.length === 0]; the warnings take no part in it. *)
Lemma isValid_errors (p : PayrollInputs.t) (d : DeductionInputs.t) (y : YTDInputs.t) :
  ValidationResult.isValid (validatePayrollInputs p d y) = true
  <-> ValidationResult.errors (validatePayrollInputs p d y) = [].
Proof. apply length_eqb_0. Qed.

(** C8, the claim as stated, fails: the sample inputs of the test suite with
    cpp1Paid = -1 are reported valid although a year-to-date accumulator is
    negative. *)
Lemma C8_unchecked_accumulator_is_valid :
  ValidationResult.isValid
    (validatePayrollInputs Samples.samplePayrollInputs
       Samples.sampleDeductionInputs Samples.negativePaidYTDInputs) = true
  /\ YTDInputs.cpp1Paid Samples.negativePaidYTDInputs < 0
  /\ ~ (ValidationResult.isValid
          (validatePayrollInputs Samples.samplePayrollInputs
             Samples.sampleDeductionInputs Samples.negativePaidYTDInputs) = true
        <-> InputRanges.allInputsInRange Samples.samplePayrollInputs
              Samples.sampleDeductionInputs Samples.negativePaidYTDInputs).
Proof.
  split; [reflexivity | split; [reflexivity |]].
  intros [H _]. specialize (H eq_refl).
  destruct H as (_ & _ & _ & _ & _ & H & _).
  vm_compute in H. apply H. reflexivity.
Qed.

(** C8, amended: validatePayrollInputs returns isValid = true exactly when
    rate > 0, the straight-time, time-and-a-half and double-time hours are
    >= 0, the union-dues and RRSP percentages lie in [0, 100], and the
    year-to-date pensionable and insurable earnings are >= 0.  The result is
    a record of a flag and two lists of strings for every input; the warnings
    (total hours > 84, RRSP% > 18) are kept apart from the errors and isValid
    holds exactly when there is no error. *)
Theorem C8_isValid_iff_checked_inputs (p : PayrollInputs.t)
    (d : DeductionInputs.t) (y : YTDInputs.t) :
  (ValidationResult.isValid (validatePayrollInputs p d y) = true
   <-> 0 < PayrollInputs.rate p
       /\ 0 <= PayrollInputs.straightTime p
       /\ 0 <= PayrollInputs.overtimeHalf p
       /\ 0 <= PayrollInputs.overtimeDouble p
       /\ (0 <= DeductionInputs.unionDuesPercent d
           /\ DeductionInputs.unionDuesPercent d <= 100)
       /\ (0 <= DeductionInputs.rrspPercent d
           /\ DeductionInputs.rrspPercent d <= 100)
       /\ 0 <= YTDInputs.pensionableEarnings y
       /\ 0 <= YTDInputs.insurableEarnings y)
  /\ (ValidationResult.isValid (validatePayrollInputs p d y) = true
      <-> ValidationResult.errors (validatePayrollInputs p d y) = []).
Proof.
  split; [| apply isValid_errors].
  rewrite isValid_errors. unfold validatePayrollInputs.
  cbn [ValidationResult.errors].
  rewrite !pushIf_nil, !orb_false_iff, !Qlt_bool_false, Qle_bool_false.
  tauto.
Qed.

(** Both warnings can be raised on inputs that are valid. *)
Lemma warnings_do_not_invalidate :
  let p := PayrollInputs.Build 60 60 30 0 1.5 0 0 150 5 "2025-01-15" weekly AB in
  let d := DeductionInputs.Build 3 25 true 50 in
  let r := validatePayrollInputs p d Samples.sampleYTDInputs in
  ValidationResult.isValid r = true
  /\ ValidationResult.warnings r
     = ["Total hours exceed 84 per week - verify compliance with labour standards";
        "RRSP contribution exceeds typical 18% limit"]%string.
Proof. split; reflexivity. Qed.



(** The identity on the sample inputs of the test suite: 3942.00 gross,
    1362.02 deducted, 2579.98 net. *)
Lemma sample_net_pay :
  let r := calculatePayroll Samples.samplePayrollInputs
             Samples.sampleDeductionInputs Samples.sampleYTDInputs in
  GrossPayBreakdown.total (PayrollResults.gross r) == 3942
  /\ DeductionBreakdown.total (PayrollResults.deductions r) == 1362.02
  /\ PayrollResults.net r == 2579.98.
Proof. repeat split; vm_compute; reflexivity. Qed.

End PayrollProperties.

(** * Properties of the rigging engine *)

Module RiggingProperties.

Import JSNumber.
Import Rigging.
Local Open Scope R_scope.

(** ** The number model on finite values *)

Lemma Rsign_pos (x : R) : 0 < x -> Rsign x = Pos.
Proof. intros H. unfold Rsign. destruct (Rlt_dec 0 x); [reflexivity | contradiction]. Qed.

Lemma Rsign_neg (x : R) : x < 0 -> Rsign x = Neg.
Proof.
  intros H. unfold Rsign.
  destruct (Rlt_dec 0 x); [lra |].
  destruct (Rlt_dec x 0); [reflexivity | contradiction].
Qed.

Lemma Rsign_zero (x : R) : x = 0 -> Rsign x = Zero.
Proof.
  intros H. unfold Rsign.
  destruct (Rlt_dec 0 x); [lra |].
  destruct (Rlt_dec x 0); [lra | reflexivity].
Qed.

Lemma lt_Fin (x y : R) : lt (Fin x) (Fin y) = true <-> x < y.
Proof.
  simpl. destruct (Rlt_dec x y); split; intros H;
    try reflexivity; try assumption; try discriminate H; contradiction.
Qed.

Lemma le_Fin (x y : R) : le (Fin x) (Fin y) = true <-> x <= y.
Proof.
  simpl. destruct (Rle_dec x y); split; intros H;
    try reflexivity; try assumption; try discriminate H; contradiction.
Qed.

Lemma lt_Fin_false (x y : R) : lt (Fin x) (Fin y) = false <-> y <= x.
Proof.
  simpl. destruct (Rlt_dec x y); split; intros H;
    try reflexivity; try discriminate H; lra.
Qed.


Lemma div_Fin (x y : R) : y <> 0 -> div (Fin x) (Fin y) = Fin (x / y).
Proof. intros H. simpl. destruct (Req_dec_T y 0); [contradiction | reflexivity]. Qed.

Lemma div_Fin_zero (x : R) : div (Fin x) (Fin 0) = infinity (Rsign x).
Proof. simpl. destruct (Req_dec_T 0 0) as [_ | H]; [reflexivity | now elim H]. Qed.


(** ** validateRiggingGeometry and calculateRiggingAnalysis *)

(** C2: validateRiggingGeometry returns isValid = true for every input, and
    the safetyCheck of calculateRiggingAnalysis is the isWLLAdequate flag of
    its safety analysis. *)
Theorem C2_geometry_always_valid (inputs : RiggingInputs.t) :
  GeometryValidation.isValid (validateRiggingGeometry inputs) = true
  /\ RiggingResults.safetyCheck (calculateRiggingAnalysis inputs)
     = SafetyAnalysis.isWLLAdequate
         (RiggingResults.safety (calculateRiggingAnalysis inputs)).
Proof.
  split.
  - reflexivity.
  - unfold calculateRiggingAnalysis.
    cbn [RiggingResults.safetyCheck RiggingResults.safety
         SafetyAnalysis.isWLLAdequate].
    change (GeometryValidation.isValid (validateRiggingGeometry inputs)) with true.
    apply andb_true_r.
Qed.

(** The warnings of the geometry check are appended to those of the safety
    analysis; an input that draws every geometry warning is still valid. *)
Lemma geometry_warnings_keep_validity :
  let inputs :=
    RiggingInputs.Build vertical (Fin 0) 5 (Fin 160) (Fin 1500) (Fin 2000) (Fin 0) in
  GeometryValidation.isValid (validateRiggingGeometry inputs) = true
  /\ GeometryValidation.warnings (validateRiggingGeometry inputs)
     = [AngleTooLarge (Fin 160); TooManyLegs 5; WeightNotPositive;
        SlingWLLNotPositive; WideAngle; CogOffsetExceedsHalfSpacing].
Proof.
  split; [reflexivity |].
  unfold validateRiggingGeometry.
  cbn [RiggingInputs.angle RiggingInputs.legs RiggingInputs.weight
       RiggingInputs.slingWLL RiggingInputs.cogOffset RiggingInputs.spacing
       RiggingConstants.MIN_ANGLE RiggingConstants.MAX_ANGLE
       RiggingConstants.MAX_LEGS RIGGING_CONSTANTS Math_abs].
  unfold gt, of_nat.
  rewrite div_Fin by lra.
  assert (H1 : lt (Fin 160) (Fin 10) = false) by (apply lt_Fin_false; lra).
  assert (H2 : lt (Fin 150) (Fin 160) = true) by (apply lt_Fin; lra).
  assert (H3 : lt (Fin 4) (Fin (INR 5)) = true) by (apply lt_Fin; simpl; lra).
  assert (H4 : le (Fin 0) (Fin 0) = true) by (apply le_Fin; lra).
  assert (H5 : lt (Fin 120) (Fin 160) = true) by (apply lt_Fin; lra).
  assert (H6 : lt (Fin (2000 / 2)) (Fin (Rabs 1500)) = true).
  { apply lt_Fin. rewrite Rabs_right by lra. lra. }
  rewrite H1, H2, H3, H4, H5, H6. reflexivity.
Qed.

(** ** calculateAngleFactor *)





End RiggingProperties.

(** * Properties of the binary64 arithmetic *)

Module Binary64Properties.
Import Binary64.
Local Open Scope R_scope.

Lemma Rabs_le_inv x b : Rabs x <= b -> - b <= x <= b.
Proof. unfold Rabs. destruct (Rcase_abs x); lra. Qed.

Lemma bpow_gt_0 e : 0 < bpow e.
Proof. apply powerRZ_lt; lra. Qed.

Lemma bpow_plus a b : bpow (a + b) = bpow a * bpow b.
Proof. apply powerRZ_add; lra. Qed.

Lemma bpow_opp a : bpow (- a) = / bpow a.
Proof. apply powerRZ_neg'. Qed.

Lemma bpow_cancel a : bpow (- a) * bpow a = 1.
Proof. rewrite bpow_opp. apply Rinv_l. pose proof (bpow_gt_0 a); lra. Qed.

Lemma bpow_lt a b : (a < b)%Z -> bpow a < bpow b.
Proof.
  intros H. unfold bpow. rewrite !powerRZ_Rpower by lra.
  apply Rpower_lt; [lra | now apply IZR_lt].
Qed.

Lemma bpow_le a b : (a <= b)%Z -> bpow a <= bpow b.
Proof.
  intros H. destruct (Z.eq_dec a b) as [->|Hn]; [lra|].
  apply Rlt_le, bpow_lt; lia.
Qed.

Lemma bpow_lt_inv a b : bpow a < bpow b -> (a < b)%Z.
Proof.
  intros H. destruct (Z_lt_le_dec a b) as [|Hle]; [assumption|].
  apply bpow_le in Hle. lra.
Qed.

Lemma bpow_IZR e : (0 <= e)%Z -> bpow e = IZR (2 ^ e).
Proof.
  intros H. unfold bpow.
  rewrite <- (Z2Nat.id e) by assumption.
  rewrite <- pow_powerRZ, pow_IZR. reflexivity.
Qed.

Lemma bpow_0 : bpow 0 = 1.
Proof. reflexivity. Qed.

Lemma bpow_1 : bpow 1 = 2.
Proof. unfold bpow. simpl. ring. Qed.

(** *** Rounding to the nearest integer, ties to even *)

Lemma ZnearestE_half x : Rabs (IZR (ZnearestE x) - x) <= 1 / 2.
Proof.
  unfold ZnearestE. pose proof (Zfloor_bound x) as [H1 H2].
  destruct (Rlt_dec _ _) as [Hl|Hl].
  - apply Rabs_le; lra.
  - destruct (Rlt_dec _ _) as [Hg|Hg].
    + rewrite plus_IZR. apply Rabs_le; lra.
    + destruct (Z.even _); [|rewrite plus_IZR]; apply Rabs_le; lra.
Qed.

Lemma ZnearestE_unique x n : Rabs (x - IZR n) < 1 / 2 -> ZnearestE x = n.
Proof.
  intros H. pose proof (ZnearestE_half x) as H'.
  apply Rabs_def2 in H. 
  assert (Hd : Rabs (IZR (ZnearestE x) - IZR n) < 1).
  { apply Rabs_def1; apply Rabs_le_inv in H'; lra. }
  rewrite <- minus_IZR in Hd. apply Rabs_def2 in Hd. destruct Hd as [Hd1 Hd2].
  apply lt_IZR in Hd1. change (-(1)) with (IZR (-1)) in Hd2. apply lt_IZR in Hd2. lia.
Qed.

Lemma ZnearestE_IZR n : ZnearestE (IZR n) = n.
Proof.
  apply ZnearestE_unique. replace (IZR n - IZR n) with 0 by ring.
  rewrite Rabs_R0. lra.
Qed.

Lemma ZnearestE_bounds x :
  (Zfloor x <= ZnearestE x <= Zfloor x + 1)%Z.
Proof.
  unfold ZnearestE. repeat destruct (Rlt_dec _ _); try destruct (Z.even _); lia.
Qed.

Lemma ZnearestE_le x y : x <= y -> (ZnearestE x <= ZnearestE y)%Z.
Proof.
  intros Hxy. pose proof (Zfloor_le _ _ Hxy) as Hf.
  destruct (Z.eq_dec (Zfloor x) (Zfloor y)) as [He|Hne].
  - unfold ZnearestE. rewrite <- He.
    repeat destruct (Rlt_dec _ _); try lia; try lra;
    destruct (Z.even _); lia.
  - pose proof (ZnearestE_bounds x). pose proof (ZnearestE_bounds y). lia.
Qed.

(** *** Magnitude *)

Lemma ln2_pos : 0 < ln 2.
Proof. pose proof ln_lt_2. lra. Qed.

Lemma bpow_exp e : bpow e = exp (IZR e * ln 2).
Proof. unfold bpow. rewrite powerRZ_Rpower by lra. reflexivity. Qed.

Lemma mag_spec x : x <> 0 -> bpow (mag x - 1) <= Rabs x < bpow (mag x).
Proof.
  intros Hx. apply Rabs_pos_lt in Hx.
  unfold mag. set (L := ln (Rabs x) / ln 2).
  pose proof (Zfloor_bound L) as [H1 H2]. pose proof ln2_pos as Hl.
  assert (HL : Rabs x = exp (L * ln 2)).
  { unfold L. replace (ln (Rabs x) / ln 2 * ln 2) with (ln (Rabs x)) by (field; lra).
    now rewrite exp_ln. }
  rewrite !bpow_exp. replace (Zfloor L + 1 - 1)%Z with (Zfloor L) by lia.
  split.
  - rewrite HL. destruct (Req_dec (IZR (Zfloor L)) L) as [->|Hn]; [lra|].
    apply Rlt_le, exp_increasing. nra.
  - rewrite HL. apply exp_increasing. rewrite plus_IZR. nra.
Qed.

Lemma mag_unique x e : bpow (e - 1) <= Rabs x < bpow e -> mag x = e.
Proof.
  intros [H1 H2].
  assert (Hx : x <> 0).
  { intros ->. rewrite Rabs_R0 in H1. pose proof (bpow_gt_0 (e - 1)). lra. }
  destruct (mag_spec x Hx) as [H3 H4].
  assert (e - 1 < mag x)%Z by (apply bpow_lt_inv; lra).
  assert (mag x - 1 < e)%Z by (apply bpow_lt_inv; lra).
  lia.
Qed.

Lemma mag_le x y : x <> 0 -> Rabs x <= Rabs y -> (mag x <= mag y)%Z.
Proof.
  intros Hx Hxy.
  assert (Hy : y <> 0).
  { intros ->. rewrite Rabs_R0 in Hxy. apply Rabs_pos_lt in Hx. lra. }
  destruct (mag_spec x Hx) as [H1 H2]. destruct (mag_spec y Hy) as [H3 H4].
  assert (mag x - 1 < mag y)%Z by (apply bpow_lt_inv; lra). lia.
Qed.

Lemma cexp_ge x : (-1074 <= cexp x)%Z.
Proof. unfold cexp. lia. Qed.

(** *** Rounding to binary64, exponent unbounded above *)

Lemma rnd_0 : rnd 0 = 0.
Proof. unfold rnd. rewrite Rmult_0_l, ZnearestE_IZR. ring. Qed.

Lemma scaled_back x : x * bpow (- cexp x) * bpow (cexp x) = x.
Proof. rewrite Rmult_assoc, bpow_cancel. ring. Qed.

Lemma rnd_error x : Rabs (rnd x - x) <= bpow (cexp x) / 2.
Proof.
  unfold rnd. set (q := cexp x). set (s := x * bpow (- q)).
  replace (IZR (ZnearestE s) * bpow q - x) with ((IZR (ZnearestE s) - s) * bpow q)
    by (unfold s; rewrite Rmult_minus_distr_r, Rmult_assoc, bpow_cancel; ring).
  rewrite Rabs_mult, (Rabs_pos_eq (bpow q)) by (apply Rlt_le, bpow_gt_0).
  pose proof (ZnearestE_half s). pose proof (bpow_gt_0 q). nra.
Qed.

Lemma rnd_relative x :
  Rabs (rnd x - x) <= bpow (-53) * Rabs x + bpow (-1075).
Proof.
  destruct (Req_dec x 0) as [->|Hx].
  { rewrite rnd_0, Rminus_0_r, Rabs_R0. pose proof (bpow_gt_0 (-1075)). lra. }
  pose proof (rnd_error x) as He. pose proof (mag_spec x Hx) as [Hm _].
  pose proof (bpow_gt_0 (-1075)). pose proof (bpow_gt_0 (-53)).
  pose proof (Rabs_pos x).
  unfold cexp in He.
  destruct (Z.max_spec (mag x - 53) (-1074)) as [[Hc Hq]|[Hc Hq]]; rewrite Hq in He.
  - replace (bpow (-1074) / 2) with (bpow (-1075)) in He.
    + nra.
    + replace (-1074)%Z with (-1075 + 1)%Z by lia. rewrite bpow_plus.
      rewrite bpow_1. field.
  - replace (bpow (mag x - 53) / 2) with (bpow (-53) * bpow (mag x - 1)) in He.
    + nra.
    + replace (mag x - 53)%Z with (-53 + (mag x - 1) + 1)%Z by lia.
      rewrite !bpow_plus. rewrite bpow_1. field.
Qed.

Lemma rnd_nonneg x : 0 <= x -> 0 <= rnd x.
Proof.
  intros Hx. unfold rnd. apply Rmult_le_pos; [|apply Rlt_le, bpow_gt_0].
  apply IZR_le. rewrite <- (ZnearestE_IZR 0). apply ZnearestE_le.
  pose proof (bpow_gt_0 (- cexp x)). simpl. nra.
Qed.

Lemma rnd_nonpos x : x <= 0 -> rnd x <= 0.
Proof.
  intros Hx. unfold rnd.
  assert (IZR (ZnearestE (x * bpow (- cexp x))) <= 0).
  { apply IZR_le. rewrite <- (ZnearestE_IZR 0). apply ZnearestE_le.
    pose proof (bpow_gt_0 (- cexp x)). simpl. nra. }
  pose proof (bpow_gt_0 (cexp x)). nra.
Qed.

Lemma cexp_mag x : (mag x - 53 <= cexp x)%Z.
Proof. unfold cexp. lia. Qed.

(** A positive number rounds to at most [2^(cexp+53)] and, in the normal
    range, to at least [2^(mag-1)]. *)
Lemma scaled_lt x e : Rabs x < bpow e -> Rabs (x * bpow (- cexp x)) < bpow (e - cexp x).
Proof.
  intros H. rewrite Rabs_mult, (Rabs_pos_eq (bpow _)) by (apply Rlt_le, bpow_gt_0).
  unfold Z.sub. rewrite bpow_plus.
  apply Rmult_lt_compat_r; [apply bpow_gt_0|assumption].
Qed.

Lemma scaled_ge x e : bpow e <= Rabs x -> bpow (e - cexp x) <= Rabs (x * bpow (- cexp x)).
Proof.
  intros H. rewrite Rabs_mult, (Rabs_pos_eq (bpow _)) by (apply Rlt_le, bpow_gt_0).
  unfold Z.sub. rewrite bpow_plus.
  apply Rmult_le_compat_r; [apply Rlt_le, bpow_gt_0|assumption].
Qed.

Lemma rnd_pos_upper x : 0 < x -> rnd x <= bpow (cexp x + 53).
Proof.
  intros Hx. unfold rnd.
  assert (Hn : x <> 0) by lra. destruct (mag_spec x Hn) as [_ H].
  apply scaled_lt in H. set (s := x * bpow (- cexp x)) in *.
  assert (Hs : s <= bpow 53).
  { apply Rabs_def2 in H. apply Rlt_le. eapply Rlt_le_trans; [apply H|].
    apply bpow_le. pose proof (cexp_mag x). lia. }
  assert (Hk : IZR (ZnearestE s) <= bpow 53).
  { rewrite bpow_IZR by lia. apply IZR_le.
    rewrite <- (ZnearestE_IZR (2 ^ 53)). apply ZnearestE_le.
    rewrite <- bpow_IZR by lia. exact Hs. }
  rewrite Z.add_comm, bpow_plus. pose proof (bpow_gt_0 (cexp x)). nra.
Qed.

Lemma rnd_neg_lower x : x < 0 -> - bpow (cexp x + 53) <= rnd x.
Proof.
  intros Hx. unfold rnd.
  assert (Hn : x <> 0) by lra. destruct (mag_spec x Hn) as [_ H].
  apply scaled_lt in H. set (s := x * bpow (- cexp x)) in *.
  assert (Hs : - bpow 53 <= s).
  { apply Rabs_def2 in H. apply Rlt_le.
    assert (bpow (mag x - cexp x) <= bpow 53)
      by (apply bpow_le; pose proof (cexp_mag x); lia).
    lra. }
  assert (Hk : - bpow 53 <= IZR (ZnearestE s)).
  { rewrite bpow_IZR by lia. rewrite <- opp_IZR. apply IZR_le.
    rewrite <- (ZnearestE_IZR (- 2 ^ 53)). apply ZnearestE_le.
    rewrite opp_IZR, <- bpow_IZR by lia. exact Hs. }
  rewrite Z.add_comm, bpow_plus. pose proof (bpow_gt_0 (cexp x)). nra.
Qed.

(** In the normal range the rounded value stays in the binade. *)
Lemma rnd_pos_lower x :
  0 < x -> (-1074 < mag x - 53)%Z -> bpow (mag x - 1) <= rnd x.
Proof.
  intros Hx Hnorm. unfold rnd.
  assert (Hq : cexp x = (mag x - 53)%Z) by (unfold cexp; lia).
  assert (Hn : x <> 0) by lra. destruct (mag_spec x Hn) as [H _].
  apply scaled_ge in H. set (s := x * bpow (- cexp x)) in *.
  assert (Hs : bpow 52 <= s).
  { rewrite Rabs_pos_eq in H.
    - replace (mag x - 1 - cexp x)%Z with 52%Z in H by lia. exact H.
    - unfold s. pose proof (bpow_gt_0 (- cexp x)). nra. }
  assert (Hk : bpow 52 <= IZR (ZnearestE s)).
  { rewrite bpow_IZR by lia. apply IZR_le.
    rewrite <- (ZnearestE_IZR (2 ^ 52)) at 1. apply ZnearestE_le.
    rewrite <- bpow_IZR by lia. exact Hs. }
  replace (mag x - 1)%Z with (52 + cexp x)%Z by lia.
  rewrite bpow_plus. pose proof (bpow_gt_0 (cexp x)). nra.
Qed.

Lemma rnd_neg_upper x :
  x < 0 -> (-1074 < mag x - 53)%Z -> rnd x <= - bpow (mag x - 1).
Proof.
  intros Hx Hnorm. unfold rnd.
  assert (Hq : cexp x = (mag x - 53)%Z) by (unfold cexp; lia).
  assert (Hn : x <> 0) by lra. destruct (mag_spec x Hn) as [H _].
  apply scaled_ge in H. set (s := x * bpow (- cexp x)) in *.
  assert (Hs : s <= - bpow 52).
  { rewrite Rabs_left in H.
    - replace (mag x - 1 - cexp x)%Z with 52%Z in H by lia. lra.
    - unfold s. pose proof (bpow_gt_0 (- cexp x)). nra. }
  assert (Hk : IZR (ZnearestE s) <= - bpow 52).
  { rewrite bpow_IZR by lia. rewrite <- opp_IZR. apply IZR_le.
    rewrite <- (ZnearestE_IZR (- 2 ^ 52)). apply ZnearestE_le.
    rewrite opp_IZR, <- bpow_IZR by lia. exact Hs. }
  replace (mag x - 1)%Z with (52 + cexp x)%Z by lia.
  rewrite bpow_plus. pose proof (bpow_gt_0 (cexp x)). nra.
Qed.

Lemma cexp_le x y : x <> 0 -> Rabs x <= Rabs y -> (cexp x <= cexp y)%Z.
Proof.
  intros Hx Hxy. pose proof (mag_le x y Hx Hxy). unfold cexp. lia.
Qed.

Theorem rnd_le x y : x <= y -> rnd x <= rnd y.
Proof.
  intros Hxy.
  destruct (Rle_dec x 0) as [Hx0|Hx0].
  - destruct (Rle_dec 0 y) as [Hy0|Hy0].
    + pose proof (rnd_nonpos x Hx0). pose proof (rnd_nonneg y Hy0). lra.
    + (* x <= y < 0 *)
      assert (Hy : y < 0) by lra. assert (Hx : x < 0) by lra.
      assert (Hc : (cexp y <= cexp x)%Z).
      { apply cexp_le; [lra|]. rewrite !Rabs_left by assumption. lra. }
      destruct (Z.eq_dec (cexp y) (cexp x)) as [He|Hne].
      * unfold rnd. rewrite He. apply Rmult_le_compat_r; [apply Rlt_le, bpow_gt_0|].
        apply IZR_le, ZnearestE_le. apply Rmult_le_compat_r; [apply Rlt_le, bpow_gt_0|lra].
      * assert (Hnorm : (-1074 < mag x - 53)%Z).
        { pose proof (cexp_ge y). unfold cexp in Hc, Hne |- *. unfold cexp in H. lia. }
        pose proof (rnd_neg_upper x Hx Hnorm). pose proof (rnd_neg_lower y Hy).
        assert (bpow (cexp y + 53) <= bpow (mag x - 1)).
        { apply bpow_le. unfold cexp in *. lia. }
        lra.
  - assert (Hx : 0 < x) by lra. assert (Hy : 0 < y) by lra.
    assert (Hc : (cexp x <= cexp y)%Z).
    { apply cexp_le; [lra|]. rewrite !Rabs_pos_eq by lra. lra. }
    destruct (Z.eq_dec (cexp x) (cexp y)) as [He|Hne].
    + unfold rnd. rewrite He. apply Rmult_le_compat_r; [apply Rlt_le, bpow_gt_0|].
      apply IZR_le, ZnearestE_le. apply Rmult_le_compat_r; [apply Rlt_le, bpow_gt_0|lra].
    + assert (Hnorm : (-1074 < mag y - 53)%Z).
      { pose proof (cexp_ge x). unfold cexp in *. lia. }
      pose proof (rnd_pos_lower y Hy Hnorm). pose proof (rnd_pos_upper x Hx).
      assert (bpow (cexp x + 53) <= bpow (mag y - 1)).
      { apply bpow_le. unfold cexp in *. lia. }
      lra.
Qed.

(** *** Representable numbers *)

Lemma rnd_format x : format x -> rnd x = x.
Proof.
  intros (m & e & -> & Hm & He).
  destruct (Z.eq_dec m 0) as [->|Hm0].
  { rewrite Rmult_0_l. apply rnd_0. }
  set (x := IZR m * bpow e).
  assert (Hx : x <> 0).
  { unfold x. apply Rmult_integral_contrapositive_currified.
    - now apply not_0_IZR. - pose proof (bpow_gt_0 e). lra. }
  assert (Hlt : Rabs x < bpow (53 + e)).
  { unfold x. rewrite Rabs_mult, (Rabs_pos_eq (bpow e)) by (apply Rlt_le, bpow_gt_0).
    rewrite bpow_plus. apply Rmult_lt_compat_r; [apply bpow_gt_0|].
    rewrite bpow_IZR by lia. rewrite <- abs_IZR. now apply IZR_lt. }
  destruct (mag_spec x Hx) as [Hm1 _].
  assert (Hmag : (mag x - 1 < 53 + e)%Z) by (apply bpow_lt_inv; lra).
  assert (Hq : (cexp x <= e)%Z) by (unfold cexp; lia).
  unfold rnd.
  replace (x * bpow (- cexp x)) with (IZR (m * 2 ^ (e - cexp x))).
  - rewrite ZnearestE_IZR, mult_IZR, <- bpow_IZR by lia.
    unfold x. rewrite Rmult_assoc, <- bpow_plus. do 2 f_equal. lia.
  - rewrite mult_IZR, <- bpow_IZR by lia. unfold x.
    rewrite Rmult_assoc, <- bpow_plus. reflexivity.
Qed.

Lemma format_IZR n : (Z.abs n < 2 ^ 53)%Z -> format (IZR n).
Proof.
  intros H. exists n, 0%Z. rewrite bpow_0. split; [ring|split; [assumption|lia]].
Qed.

Lemma format_bpow e : (-1074 <= e)%Z -> format (bpow e).
Proof.
  intros H. exists 1%Z, e. split; [ring|split; [reflexivity|assumption]].
Qed.

Lemma format_opp x : format x -> format (- x).
Proof.
  intros (m & e & -> & Hm & He). exists (- m)%Z, e.
  rewrite opp_IZR. split; [ring|split; [lia|assumption]].
Qed.

(** A representable number of magnitude at least [2^k] is a multiple of
    [2^(k-52)]. *)
Lemma format_grid x k :
  format x -> (-1074 <= k - 52)%Z -> bpow k <= Rabs x ->
  exists n : Z, x = IZR n * bpow (k - 52).
Proof.
  intros (m & e & -> & Hm & He) Hk Hx.
  assert (Hlt : Rabs (IZR m * bpow e) < bpow (53 + e)).
  { rewrite Rabs_mult, (Rabs_pos_eq (bpow e)) by (apply Rlt_le, bpow_gt_0).
    rewrite bpow_plus. apply Rmult_lt_compat_r; [apply bpow_gt_0|].
    rewrite bpow_IZR by lia. rewrite <- abs_IZR. now apply IZR_lt. }
  assert (k < 53 + e)%Z by (apply bpow_lt_inv; lra).
  exists (m * 2 ^ (e - (k - 52)))%Z.
  rewrite mult_IZR, <- bpow_IZR by lia.
  rewrite Rmult_assoc, <- bpow_plus. do 2 f_equal. lia.
Qed.

Lemma format_half x : format x -> bpow (-1021) <= Rabs x -> format (x / 2).
Proof.
  intros Hf Hx. destruct Hf as (m & e & -> & Hm & He).
  assert (Hlt : Rabs (IZR m * bpow e) < bpow (53 + e)).
  { rewrite Rabs_mult, (Rabs_pos_eq (bpow e)) by (apply Rlt_le, bpow_gt_0).
    rewrite bpow_plus. apply Rmult_lt_compat_r; [apply bpow_gt_0|].
    rewrite bpow_IZR by lia. rewrite <- abs_IZR. now apply IZR_lt. }
  assert (-1021 < 53 + e)%Z by (apply bpow_lt_inv; lra).
  exists m, (e - 1)%Z. split; [|split; [assumption|lia]].
  unfold Z.sub. rewrite bpow_plus, bpow_opp, bpow_1. field.
Qed.


Lemma format_ge_min x : format x -> x <> 0 -> bpow (-1074) <= Rabs x.
Proof.
  intros (m & e & -> & Hm & He) Hx.
  assert (Hm0 : m <> 0%Z) by (intros ->; apply Hx; ring).
  rewrite Rabs_mult, (Rabs_pos_eq (bpow e)) by (apply Rlt_le, bpow_gt_0).
  assert (1 <= Rabs (IZR m)).
  { rewrite <- abs_IZR. apply IZR_le. lia. }
  pose proof (bpow_le _ _ He). pose proof (bpow_gt_0 (-1074)). nra.
Qed.

(** *** The constants of the format as decimal bounds *)

Lemma huge_bound : 1e300 <= bpow 1023.
Proof.
  rewrite bpow_IZR by lia. replace 1e300 with (IZR (10 ^ 300)) by lra.
  apply IZR_le, Z.leb_le. vm_compute. reflexivity.
Qed.

Lemma eta_bound : bpow (-1075) <= 1e-323.
Proof.
  change (-1075)%Z with (Z.opp 1075). rewrite bpow_opp, bpow_IZR by lia.
  replace 1e-323 with (/ IZR (10 ^ 323)) by lra.
  apply Rinv_le_contravar.
  - apply IZR_lt. reflexivity.
  - apply IZR_le, Z.leb_le. vm_compute. reflexivity.
Qed.

Lemma tiny_bound : bpow (-1074) <= 1e-323.
Proof.
  change (-1074)%Z with (Z.opp 1074). rewrite bpow_opp, bpow_IZR by lia.
  replace 1e-323 with (/ IZR (10 ^ 323)) by lra.
  apply Rinv_le_contravar.
  - apply IZR_lt. reflexivity.
  - apply IZR_le, Z.leb_le. vm_compute. reflexivity.
Qed.

Lemma u_bound : bpow (-53) <= 1.12e-16.
Proof.
  change (-53)%Z with (Z.opp 53). rewrite bpow_opp, bpow_IZR by lia.
  replace (IZR (2 ^ 53)) with 9007199254740992 by reflexivity. lra.
Qed.

Lemma normal_bound : bpow (-1021) <= 1e-300.
Proof.
  change (-1021)%Z with (Z.opp 1021). rewrite bpow_opp, bpow_IZR by lia.
  replace 1e-300 with (/ IZR (10 ^ 300)) by lra.
  apply Rinv_le_contravar.
  - apply IZR_lt. reflexivity.
  - apply IZR_le, Z.leb_le. vm_compute. reflexivity.
Qed.

Lemma bpow_m53 : bpow (-53) = / 9007199254740992.
Proof.
  change (-53)%Z with (Z.opp 53). rewrite bpow_opp, bpow_IZR by lia. reflexivity.
Qed.

Lemma bpow_m52 : bpow (-52) = / 4503599627370496.
Proof.
  change (-52)%Z with (Z.opp 52). rewrite bpow_opp, bpow_IZR by lia. reflexivity.
Qed.

Lemma bpow_m2 : bpow (-2) = / 4.
Proof.
  change (-2)%Z with (Z.opp 2). rewrite bpow_opp, bpow_IZR by lia. reflexivity.
Qed.

(** *** Rounding a real number to a double *)

Lemma rnd_abs_le x B : format B -> Rabs x <= B -> Rabs (rnd x) <= B.
Proof.
  intros HB Hx. apply Rabs_le_inv in Hx. apply Rabs_le. split.
  - rewrite <- (rnd_format (- B)) by now apply format_opp. apply rnd_le; lra.
  - rewrite <- (rnd_format B) by assumption. apply rnd_le; lra.
Qed.

Lemma round_val r :
  Rabs r <= bpow 1023 -> finite (round r) /\ val (round r) = rnd r.
Proof.
  intros Hr. pose proof (rnd_abs_le r (bpow 1023) (format_bpow 1023 ltac:(lia)) Hr) as Hb.
  assert (Hlt : bpow 1023 < bpow 1024) by (apply bpow_lt; lia).
  unfold round. destruct (Rle_dec _ _) as [Ho|_]; [lra|].
  destruct (Req_dec_T _ _) as [Hz|Hz]; simpl; auto.
Qed.

(** The standard model of the arithmetic: away from overflow a rounded
    result has a relative error of at most [2^-53] (absolute [2^-1075] on
    underflow). *)
Lemma round_model r :
  Rabs r <= 1e300 ->
  finite (round r) /\ Rabs (val (round r) - r) <= 1.12e-16 * Rabs r + 1e-323.
Proof.
  intros Hr. pose proof huge_bound.
  destruct (round_val r) as [Hf ->]; [lra|]. split; [exact Hf|].
  pose proof (rnd_relative r). pose proof u_bound. pose proof eta_bound.
  pose proof (Rabs_pos r). nra.
Qed.

Lemma finite_Fin a : finite a -> val a <> 0 -> a = Fin (val a).
Proof. destruct a; simpl; intros; try contradiction; auto. Qed.

Lemma negative_false r : 0 <= r -> negative r = false.
Proof. intros H. unfold negative. destruct (Rlt_dec r 0); [lra|reflexivity]. Qed.

Lemma negative_true r : r < 0 -> negative r = true.
Proof. intros H. unfold negative. destruct (Rlt_dec r 0); [reflexivity|lra]. Qed.

Lemma round_0 : round 0 = Zero false.
Proof.
  unfold round. rewrite rnd_0, Rabs_R0.
  destruct (Rle_dec _ _) as [H|_]; [pose proof (bpow_gt_0 1024); lra|].
  destruct (Req_dec_T 0 0) as [_|H]; [|contradiction].
  now rewrite negative_false by lra.
Qed.

Lemma round_format x :
  format x -> x <> 0 -> Rabs x < bpow 1024 -> round x = Fin x.
Proof.
  intros Hf Hx Hb. unfold round. rewrite (rnd_format x Hf).
  destruct (Rle_dec _ _); [lra|]. destruct (Req_dec_T x 0); [contradiction|reflexivity].
Qed.

Lemma bpow_1024_gt : 1e300 < bpow 1024.
Proof.
  pose proof huge_bound. assert (bpow 1023 < bpow 1024) by (apply bpow_lt; lia). lra.
Qed.

Lemma round_IZR n :
  n <> 0%Z -> (Z.abs n < 2 ^ 53)%Z -> round (IZR n) = Fin (IZR n).
Proof.
  intros Hn Hb. apply round_format.
  - now apply format_IZR.
  - now apply not_0_IZR.
  - rewrite <- abs_IZR. pose proof bpow_1024_gt.
    assert (IZR (Z.abs n) < IZR (2 ^ 53)) by now apply IZR_lt.
    assert (IZR (2 ^ 53) <= 1e300).
    { replace (IZR (2 ^ 53)) with 9007199254740992 by reflexivity. lra. }
    lra.
Qed.

(** A literal between two representable numbers rounds between them. *)
Lemma round_between x lo hi :
  format lo -> format hi -> 0 < lo -> lo <= x <= hi -> hi <= 1e300 ->
  exists y, round x = Fin y /\ lo <= y <= hi.
Proof.
  intros Hlo Hhi Hpos Hx Hb. exists (rnd x).
  assert (H1 : lo <= rnd x).
  { rewrite <- (rnd_format lo Hlo). apply rnd_le; lra. }
  assert (H2 : rnd x <= hi).
  { rewrite <- (rnd_format hi Hhi). apply rnd_le; lra. }
  split; [|lra]. unfold round. pose proof bpow_1024_gt.
  destruct (Rle_dec _ _) as [Ho|_].
  { rewrite Rabs_pos_eq in Ho by lra. lra. }
  destruct (Req_dec_T _ _); [lra|reflexivity].
Qed.

Lemma format_quarters n : (Z.abs n < 2 ^ 53)%Z -> format (IZR n / 4).
Proof.
  intros H. exists n, (-2)%Z. rewrite bpow_m2. split; [field|split; [assumption|lia]].
Qed.

Lemma round_1 : round 1 = Fin 1.
Proof. apply (round_IZR 1); [lia|reflexivity]. Qed.

Lemma round_2 : round 2 = Fin 2.
Proof. apply (round_IZR 2); [lia|reflexivity]. Qed.

Lemma round_25 : round 25 = Fin 25.
Proof. apply (round_IZR 25); [lia|reflexivity]. Qed.

Lemma round_100 : round 100 = Fin 100.
Proof. apply (round_IZR 100); [lia|reflexivity]. Qed.

Lemma round_gravity : exists G, round 9.80665 = Fin G /\ 9.75 <= G <= 10.
Proof.
  apply round_between; try lra.
  - replace 9.75 with (IZR 39 / 4) by lra. apply format_quarters. reflexivity.
  - apply (format_IZR 10). reflexivity.
Qed.

Lemma round_1_1 : exists g, round 1.1 = Fin g /\ 1 <= g <= 1.25.
Proof.
  apply round_between; try lra.
  - apply (format_IZR 1). reflexivity.
  - replace 1.25 with (IZR 5 / 4) by lra. apply format_quarters. reflexivity.
Qed.

Lemma hitch_factor hitchType :
  exists f, RiggingBinary64.HITCH_FACTORS hitchType = Fin f /\ 0.75 <= f <= 2.
Proof.
  destruct hitchType; simpl.
  - exists 1. split; [|lra]. replace 1.0 with 1 by lra. apply round_1.
  - exists 0.75. split; [|lra]. apply round_format.
    + replace 0.75 with (IZR 3 / 4) by lra. apply format_quarters. reflexivity.
    + lra.
    + pose proof bpow_1024_gt. rewrite Rabs_pos_eq by lra. lra.
  - exists 2. split; [|lra]. replace 2.0 with 2 by lra. apply round_2.
Qed.

(** The smallest positive double, and rounding just below it. *)
Lemma rnd_tiny : rnd (0.75 * bpow (-1074)) = bpow (-1074).
Proof.
  pose proof (bpow_gt_0 (-1074)) as Ht.
  assert (Hm : mag (0.75 * bpow (-1074)) = (-1074)%Z).
  { apply mag_unique. rewrite Rabs_pos_eq by lra.
    replace (-1074 - 1)%Z with (-1 + -1074)%Z by lia. rewrite bpow_plus.
    change (-1)%Z with (Z.opp 1). rewrite bpow_opp, bpow_1. lra. }
  unfold rnd, cexp. rewrite Hm. replace (Z.max (-1074 - 53) (-1074)) with (-1074)%Z by lia.
  rewrite Rmult_assoc, (Rmult_comm (bpow (-1074))), bpow_cancel, Rmult_1_r.
  rewrite (ZnearestE_unique 0.75 1).
  - ring.
  - apply Rabs_def1; lra.
Qed.

Lemma round_pos r :
  0.75 * bpow (-1074) <= r ->
  round r = Inf false \/ exists y, round r = Fin y /\ bpow (-1074) <= y.
Proof.
  intros Hr. pose proof (bpow_gt_0 (-1074)) as Ht.
  assert (Hy : bpow (-1074) <= rnd r).
  { rewrite <- rnd_tiny. now apply rnd_le. }
  unfold round. rewrite negative_false by lra.
  destruct (Rle_dec _ _); [now left|right].
  destruct (Req_dec_T _ _); [lra|]. eauto.
Qed.

Lemma rnd_neg_tiny : rnd (- (0.75 * bpow (-1074))) = - bpow (-1074).
Proof.
  pose proof (bpow_gt_0 (-1074)) as Ht.
  assert (Hm : mag (- (0.75 * bpow (-1074))) = (-1074)%Z).
  { apply mag_unique. rewrite Rabs_left by lra.
    replace (-1074 - 1)%Z with (-1 + -1074)%Z by lia. rewrite bpow_plus.
    change (-1)%Z with (Z.opp 1). rewrite bpow_opp, bpow_1. lra. }
  unfold rnd, cexp. rewrite Hm. replace (Z.max (-1074 - 53) (-1074)) with (-1074)%Z by lia.
  replace (- (0.75 * bpow (-1074)) * bpow (- -1074)) with (- 0.75).
  - rewrite (ZnearestE_unique (- 0.75) (-1)).
    + ring.
    + apply Rabs_def1; lra.
  - pose proof (bpow_cancel (-1074)). nra.
Qed.

Lemma round_neg r :
  r <= - (0.75 * bpow (-1074)) ->
  round r = Inf true \/ exists y, round r = Fin y /\ y <= - bpow (-1074).
Proof.
  intros Hr. pose proof (bpow_gt_0 (-1074)) as Ht.
  assert (Hy : rnd r <= - bpow (-1074)).
  { rewrite <- rnd_neg_tiny. now apply rnd_le. }
  unfold round. rewrite negative_true by lra.
  destruct (Rle_dec _ _); [now left|right].
  destruct (Req_dec_T _ _); [lra|]. eauto.
Qed.

End Binary64Properties.

(** * Properties of the rigging engine on binary64 *)

Module RiggingBinary64Properties.

Import Binary64 Binary64Properties RiggingBinary64.
Local Open Scope R_scope.

(** ** calculateSafetyFactors at zero tension *)

Lemma gt_zero_cases a :
  gt a (Zero false) = true -> a = Inf false \/ exists x, a = Fin x /\ 0 < x.
Proof.
  destruct a as [|[|]|s|x]; unfold gt, lt; simpl;
    try destruct (Rlt_dec _ _); intros H; try discriminate; try lra; eauto.
Qed.

Lemma lt_zero_cases a :
  lt a (Zero false) = true -> a = Inf true \/ exists x, a = Fin x /\ x < 0.
Proof.
  destruct a as [|[|]|s|x]; unfold lt; simpl;
    try destruct (Rlt_dec _ _); intros H; try discriminate; try lra; eauto.
Qed.

(** The effective capacity in newtons keeps the sign of the sling rating. *)
Lemma effective_WLL_pos slingWLL hitchType :
  binary64 slingWLL -> gt slingWLL (Zero false) = true ->
  let E := mul (mul slingWLL (HITCH_FACTORS hitchType)) (round 9.80665) in
  E = Inf false \/ exists z, E = Fin z /\ 0 < z.
Proof.
  intros Hb Hgt. destruct (hitch_factor hitchType) as (f & -> & Hf).
  destruct round_gravity as (G & -> & HG). pose proof (bpow_gt_0 (-1074)) as Ht.
  assert (Hnf : negative f = false) by (apply negative_false; lra).
  assert (HnG : negative G = false) by (apply negative_false; lra).
  destruct (gt_zero_cases _ Hgt) as [->|(x & -> & Hx)]; simpl.
  - rewrite Hnf. simpl. rewrite HnG. now left.
  - destruct Hb as (_ & Hfmt & _).
    pose proof (format_ge_min x Hfmt ltac:(lra)) as Hmin. rewrite Rabs_pos_eq in Hmin by lra.
    destruct (round_pos (x * f)) as [->|(y & -> & Hy)]; [nra| |]; simpl.
    + rewrite HnG. now left.
    + destruct (round_pos (y * G)) as [->|(z & -> & Hz)]; [nra|now left|].
      right. exists z. split; [reflexivity|lra].
Qed.

Lemma effective_WLL_neg slingWLL hitchType :
  binary64 slingWLL -> lt slingWLL (Zero false) = true ->
  let E := mul (mul slingWLL (HITCH_FACTORS hitchType)) (round 9.80665) in
  E = Inf true \/ exists z, E = Fin z /\ z < 0.
Proof.
  intros Hb Hlt. destruct (hitch_factor hitchType) as (f & -> & Hf).
  destruct round_gravity as (G & -> & HG). pose proof (bpow_gt_0 (-1074)) as Ht.
  assert (Hnf : negative f = false) by (apply negative_false; lra).
  assert (HnG : negative G = false) by (apply negative_false; lra).
  destruct (lt_zero_cases _ Hlt) as [->|(x & -> & Hx)]; simpl.
  - rewrite Hnf. simpl. rewrite HnG. now left.
  - destruct Hb as (_ & Hfmt & _).
    pose proof (format_ge_min x Hfmt ltac:(lra)) as Hmin. rewrite Rabs_left in Hmin by lra.
    destruct (round_neg (x * f)) as [->|(y & -> & Hy)]; [nra| |]; simpl.
    + rewrite HnG. now left.
    + destruct (round_neg (y * G)) as [->|(z & -> & Hz)]; [nra|now left|].
      right. exists z. split; [reflexivity|lra].
Qed.

Lemma effective_WLL_zero s hitchType :
  mul (mul (Zero s) (HITCH_FACTORS hitchType)) (round 9.80665) = Zero s.
Proof.
  destruct (hitch_factor hitchType) as (f & -> & Hf).
  destruct round_gravity as (G & -> & HG). simpl.
  rewrite !negative_false by lra. now destruct s.
Qed.

(** The margin and the verdict at zero tension, from the sign of the
    effective capacity. *)
Lemma margin_at_zero E s (neg : bool) :
  E = Inf neg \/ (exists z, E = Fin z /\ negative z = neg) ->
  mul (div (sub E (Zero s)) (Zero s)) (round 100) = Inf (xorb neg s) /\
  ge (mul (div (sub E (Zero s)) (Zero s)) (round 100)) MINIMUM_SAFETY_MARGIN
    = negb (xorb neg s).
Proof.
  unfold MINIMUM_SAFETY_MARGIN. rewrite round_100, round_25.
  assert (Hn : negative 100 = false) by (apply negative_false; lra).
  intros [->|(z & -> & Hz)]; simpl; rewrite ?Hz, ?Hn, ?xorb_false_r;
    split; try reflexivity; now destruct (xorb neg s).
Qed.

(** C3, amended.  For a sling rating [slingWLL] that is a double and every
    hitch, [calculateSafetyFactors] called with a zero [maxTension] returns:
    for [slingWLL > 0], [safetyMargin = +Infinity] and [isWLLAdequate = true]
    when the zero is [+0], but [-Infinity] and [false] when it is [-0]; for
    [slingWLL = 0] (of either sign), [NaN] and [false]; for [slingWLL < 0],
    [-Infinity] and [false] at [+0] ([+Infinity] and [true] at [-0]).
    [zeroSign] is the sign bit of the zero tension. *)
Theorem C3_zero_tension_by_sign
    (slingWLL : double) (hitchType : HitchType) (zeroSign : bool) :
  binary64 slingWLL ->
  let r := calculateSafetyFactors (Zero zeroSign) slingWLL hitchType in
  (gt slingWLL (Zero false) = true ->
     SafetyAnalysis.safetyMargin r = Inf zeroSign /\
     SafetyAnalysis.isWLLAdequate r = negb zeroSign) /\
  ((exists s, slingWLL = Zero s) ->
     SafetyAnalysis.safetyMargin r = NaN /\
     SafetyAnalysis.isWLLAdequate r = false) /\
  (lt slingWLL (Zero false) = true ->
     SafetyAnalysis.safetyMargin r = Inf (negb zeroSign) /\
     SafetyAnalysis.isWLLAdequate r = zeroSign).
Proof.
  intros Hb r. unfold r, calculateSafetyFactors. cbn [SafetyAnalysis.safetyMargin SafetyAnalysis.isWLLAdequate].
  split; [|split].
  - intros Hgt.
    destruct (margin_at_zero
                (mul (mul slingWLL (HITCH_FACTORS hitchType)) (round 9.80665))
                zeroSign false) as [H1 H2].
    { destruct (effective_WLL_pos slingWLL hitchType Hb Hgt) as [->|(z & -> & Hz)];
        [now left|right]. exists z. split; [reflexivity|apply negative_false; lra]. }
    now rewrite H2, H1.
  - intros [s ->]. rewrite effective_WLL_zero.
    unfold MINIMUM_SAFETY_MARGIN. rewrite round_25, round_100.
    now destruct s, zeroSign.
  - intros Hlt.
    destruct (margin_at_zero
                (mul (mul slingWLL (HITCH_FACTORS hitchType)) (round 9.80665))
                zeroSign true) as [H1 H2].
    { destruct (effective_WLL_neg slingWLL hitchType Hb Hlt) as [->|(z & -> & Hz)];
        [now left|right]. exists z. split; [reflexivity|apply negative_true; lra]. }
    rewrite H2, H1. simpl. now destruct zeroSign.
Qed.

(** ** calculateLoadDistribution with the centre of gravity outside the pick points *)

(** *** Intervals through a rounded operation *)

Lemma round_pos_model r :
  1e-300 <= r <= 1e300 ->
  exists y, round r = Fin y /\
    r * (1 - 1.12e-16) - 1e-323 <= y <= r * (1 + 1.12e-16) + 1e-323.
Proof.
  intros Hr. destruct (round_model r) as [Hf He].
  { rewrite Rabs_pos_eq by lra. lra. }
  rewrite (Rabs_pos_eq r) in He by lra. apply Rabs_le_inv in He.
  exists (val (round r)). split; [|lra].
  apply finite_Fin; [assumption|lra].
Qed.

Lemma round_neg_model r :
  - 1e300 <= r <= - 1e-300 ->
  exists y, round r = Fin y /\
    r * (1 + 1.12e-16) - 1e-323 <= y <= r * (1 - 1.12e-16) + 1e-323.
Proof.
  intros Hr. destruct (round_model r) as [Hf He].
  { rewrite Rabs_left by lra. lra. }
  rewrite (Rabs_left r) in He by lra. apply Rabs_le_inv in He.
  exists (val (round r)). split; [|lra].
  apply finite_Fin; [assumption|lra].
Qed.

Lemma div_bounds x t lo hi :
  0 < t -> lo * t <= x <= hi * t -> lo <= x / t <= hi.
Proof.
  intros Ht [H1 H2]. split.
  - apply Rmult_le_reg_r with t; [assumption|].
    replace (x / t * t) with x by (field; lra). assumption.
  - apply Rmult_le_reg_r with t; [assumption|].
    replace (x / t * t) with x by (field; lra). assumption.
Qed.

Lemma div_bounds_neg x t lo hi :
  t < 0 -> hi * t <= x <= lo * t -> lo <= x / t <= hi.
Proof.
  intros Ht [H1 H2].
  replace (x / t) with ((- x) / (- t)) by (field; lra).
  apply div_bounds; lra.
Qed.

Lemma scale_bounds x y lo hi :
  0 <= x -> lo <= y <= hi -> lo * x <= x * y <= hi * x.
Proof. intros. nra. Qed.

(** Two doubles [h < c] with [c >= 1] are at least [c * 2^-54] apart. *)
Lemma double_gap c h :
  format c -> format h -> 1 <= c -> 0 < h < c -> bpow (-54) * c <= c - h.
Proof.
  intros Hc Hh Hc1 Hhc.
  assert (Hc0 : c <> 0) by lra.
  destruct (mag_spec c Hc0) as [Hm1 Hm2]. rewrite Rabs_pos_eq in Hm1, Hm2 by lra.
  set (m := mag c) in *.
  assert (Hm : (0 < m)%Z).
  { apply bpow_lt_inv. rewrite bpow_0. lra. }
  assert (E1 : bpow (m - 1) = 2 * bpow (m - 2)).
  { replace (m - 1)%Z with (1 + (m - 2))%Z by lia. now rewrite bpow_plus, bpow_1. }
  assert (E2 : bpow m = 4 * bpow (m - 2)).
  { replace m with (1 + (m - 1))%Z at 1 by lia. rewrite bpow_plus, bpow_1, E1. ring. }
  assert (E3 : bpow (m - 54) = bpow (-54) * bpow m).
  { replace (m - 54)%Z with (-54 + m)%Z by lia. now rewrite bpow_plus. }
  assert (E4 : bpow (m - 53) = 2 * bpow (m - 54)).
  { replace (m - 53)%Z with (1 + (m - 54))%Z by lia. now rewrite bpow_plus, bpow_1. }
  pose proof (bpow_gt_0 (m - 2)). pose proof (bpow_gt_0 (-54)).
  assert (H54 : bpow (-54) <= / 4).
  { replace (/ 4) with (bpow (-2)) by apply bpow_m2. apply bpow_le. lia. }
  destruct (Rlt_dec h (bpow (m - 2))) as [Hs|Hs].
  - nra.
  - destruct (format_grid h (m - 2) Hh) as [n1 Hn1]; [lia| |].
    { rewrite Rabs_pos_eq by lra. lra. }
    destruct (format_grid c (m - 1) Hc) as [n2 Hn2]; [lia| |].
    { rewrite Rabs_pos_eq by lra. lra. }
    replace (m - 2 - 52)%Z with (m - 54)%Z in Hn1 by lia.
    replace (m - 1 - 52)%Z with (m - 53)%Z in Hn2 by lia.
    rewrite E4 in Hn2.
    assert (Hd : c - h = IZR (2 * n2 - n1) * bpow (m - 54)).
    { rewrite minus_IZR, mult_IZR, Hn1, Hn2. ring. }
    pose proof (bpow_gt_0 (m - 54)) as Hp.
    assert (Hk : (0 < 2 * n2 - n1)%Z).
    { apply lt_IZR. apply Rmult_lt_reg_r with (bpow (m - 54)); [assumption|].
      rewrite <- Hd. lra. }
    assert (1 <= IZR (2 * n2 - n1)) by (apply IZR_le; lia).
    rewrite Hd. rewrite E3 in *. pose proof (bpow_gt_0 m). nra.
Qed.

Lemma bpow_m54 : bpow (-54) = / 18014398509481984.
Proof.
  change (-54)%Z with (Z.opp 54). rewrite bpow_opp, bpow_IZR by lia. reflexivity.
Qed.

(** Half of a double that is not subnormal is a double. *)
Lemma half_exact s :
  format s -> 1e-300 <= s <= 1e300 -> div (Fin s) (round 2) = Fin (s / 2).
Proof.
  intros Hs Hb. rewrite round_2. simpl. apply round_format.
  - apply format_half; [assumption|]. pose proof normal_bound.
    rewrite Rabs_pos_eq by lra. lra.
  - lra.
  - pose proof bpow_1024_gt. rewrite Rabs_pos_eq by lra. lra.
Qed.

(** The lever branch of [calculateLoadDistribution]. *)
Lemma lever_branch weight c s :
  0 < s -> 1 < Rabs c ->
  let dA := add (div (Fin s) (round 2)) (Fin c) in
  let dB := sub (div (Fin s) (round 2)) (Fin c) in
  let total := add dA dB in
  let a := div dB total in
  let b := div dA total in
  let F := mul weight GRAVITY in
  calculateLoadDistribution weight 2 (Fin c) (Fin s) =
  {| LoadDistribution.legLoads := [a; b];
     LoadDistribution.maxTension := Math_max [mul F a; mul F b];
     LoadDistribution.minTension := Math_min [mul F a; mul F b];
     LoadDistribution.isBalanced :=
       le (div (Math_max [mul F a; mul F b]) (Math_min [mul F a; mul F b])) (round 1.1);
     LoadDistribution.imbalanceRatio :=
       div (Math_max [mul F a; mul F b]) (Math_min [mul F a; mul F b]) |}.
Proof.
  intros Hs Hc. unfold calculateLoadDistribution.
  assert (Hg : (Nat.eqb 2 2 && gt (Fin s) (Zero false) &&
                gt (Math_abs (Fin c)) (round 1))%bool = true).
  { rewrite round_1. unfold gt, lt. simpl.
    destruct (Rlt_dec 0 s); [|lra]. destruct (Rlt_dec 1 (Rabs c)); [|lra]. reflexivity. }
  rewrite Hg. reflexivity.
Qed.

(** C10, amended.  For a 2-leg lift whose inputs are doubles with
    [1e-280 <= weight <= 1e280], [spacing > 0], [cogOffset > spacing/2],
    [1 < cogOffset <= 1e299] and [cogOffset <= 1e15 * spacing],
    [calculateLoadDistribution] returns a negative share for leg A, a negative
    [minTension] and a negative [imbalanceRatio], and reports
    [isBalanced = true]. *)
Theorem C10_cog_outside_pick_points_binary64 (weight cogOffset spacing : R) :
  binary64 (Fin weight) -> binary64 (Fin cogOffset) -> binary64 (Fin spacing) ->
  1e-280 <= weight <= 1e280 ->
  0 < spacing -> spacing / 2 < cogOffset -> 1 < cogOffset <= 1e299 ->
  cogOffset <= 1e15 * spacing ->
  let r := calculateLoadDistribution (Fin weight) 2 (Fin cogOffset) (Fin spacing) in
  (exists a b, LoadDistribution.legLoads r = [a; b] /\ lt a (Zero false) = true) /\
  lt (LoadDistribution.minTension r) (Zero false) = true /\
  lt (LoadDistribution.imbalanceRatio r) (Zero false) = true /\
  LoadDistribution.isBalanced r = true.
Proof.
  intros _ (_ & Hfc & _) (_ & Hfs & _) Hw Hs Hhalf Hc HK r.
  unfold r. rewrite lever_branch by (try rewrite Rabs_pos_eq; lra).
  cbn [LoadDistribution.legLoads LoadDistribution.minTension
       LoadDistribution.imbalanceRatio LoadDistribution.isBalanced].
  (* distances *)
  rewrite (half_exact spacing Hfs) by lra.
  assert (Hfh : format (spacing / 2)).
  { apply format_half; [assumption|]. pose proof normal_bound.
    rewrite Rabs_pos_eq by lra. lra. }
  pose proof (double_gap cogOffset (spacing / 2) Hfc Hfh ltac:(lra) ltac:(lra)) as Hgap.
  rewrite bpow_m54 in Hgap.
  unfold sub. cbn [opp add].
  destruct (round_pos_model (spacing / 2 + cogOffset)) as (vA & -> & HvA); [lra|].
  destruct (round_neg_model (spacing / 2 + - cogOffset)) as (vB & -> & HvB); [lra|].
  cbn [add].
  destruct (round_pos_model (vA + vB)) as (vt & -> & Hvt); [lra|].
  (* shares *)
  cbn [div].
  assert (Hqa : - 1.5e15 <= vB / vt <= - 1e-17) by (apply div_bounds; lra).
  assert (Hqb : 0.4 <= vA / vt <= 1.5e15) by (apply div_bounds; lra).
  destruct (round_neg_model (vB / vt)) as (va & -> & Hva); [lra|].
  destruct (round_pos_model (vA / vt)) as (vb & -> & Hvb); [lra|].
  assert (Hva' : - 1.6e15 <= va <= - 5e-18) by lra.
  assert (Hvb' : 0.29 <= vb <= 1.6e15) by lra.
  clear - Hw Hva' Hvb'.
  (* forces *)
  unfold GRAVITY. destruct round_gravity as (G & -> & HG). cbn [mul].
  assert (HwG : 9.75 * weight <= weight * G <= 10 * weight)
    by (apply scale_bounds; lra).
  destruct (round_pos_model (weight * G)) as (vF & -> & HvF); [lra|].
  cbn [mul].
  assert (HP : 0.29 * vF <= vF * vb <= 1.6e15 * vF) by (apply scale_bounds; lra).
  assert (HN : 5e-18 * vF <= vF * - va <= 1.6e15 * vF) by (apply scale_bounds; lra).
  replace (vF * - va) with (- (vF * va)) in HN by ring.
  destruct (round_neg_model (vF * va)) as (fa & -> & Hfa'); [lra|].
  destruct (round_pos_model (vF * vb)) as (fb & -> & Hfb'); [lra|].
  assert (Hfa : - 1.7e15 * vF <= fa <= - 4e-18 * vF) by lra.
  assert (Hfb : 0.28 * vF <= fb <= 1.7e15 * vF) by lra.
  assert (HvF' : 1e-280 <= vF) by lra.
  clear - Hfa Hfb HvF' Hva'.
  (* extremes and their ratio *)
  assert (Hmax : Math_max [Fin fa; Fin fb] = Fin fb).
  { unfold Math_max. simpl. destruct (Rlt_dec fa fb); [reflexivity|lra]. }
  assert (Hmin : Math_min [Fin fa; Fin fb] = Fin fa).
  { unfold Math_min. simpl. destruct (Rlt_dec fb fa); [lra|reflexivity]. }
  rewrite Hmax, Hmin. cbn [div].
  assert (Hq : - 1e33 <= fb / fa <= - 1e-17) by (apply div_bounds_neg; lra).
  destruct (round_neg_model (fb / fa)) as (vr & -> & Hvr); [lra|].
  destruct round_1_1 as (g & -> & Hg).
  repeat split.
  - exists (Fin va), (Fin vb). split; [reflexivity|].
    unfold lt. simpl. destruct (Rlt_dec va 0); [reflexivity|lra].
  - unfold lt. simpl. destruct (Rlt_dec fa 0); [reflexivity|lra].
  - unfold lt. simpl. destruct (Rlt_dec vr 0); [reflexivity|lra].
  - unfold le. simpl. destruct (Rle_dec vr g); [reflexivity|lra].
Qed.

(** *** The operations on finite values *)

Lemma add_model a b :
  finite a -> finite b -> Rabs (val a + val b) <= 1e300 ->
  finite (add a b) /\
  Rabs (val (add a b) - (val a + val b))
    <= 1.12e-16 * Rabs (val a + val b) + 1e-323.
Proof.
  intros Ha Hb Hr.
  destruct a as [| |sa|x], b as [| |sb|y]; try contradiction; simpl in *;
    try (apply round_model; assumption);
    (split; [exact I|]);
    match goal with |- Rabs ?d <= _ => replace d with 0 by ring end;
    rewrite Rabs_R0;
    match goal with |- _ <= _ * Rabs ?r + _ => pose proof (Rabs_pos r) end; lra.
Qed.

Lemma add_zero_l a :
  finite a -> finite (add (Zero false) a) /\ val (add (Zero false) a) = val a.
Proof. destruct a; simpl; intros; try contradiction; auto. Qed.

Lemma div_model a b :
  finite a -> finite b -> val b <> 0 -> Rabs (val a / val b) <= 1e300 ->
  finite (div a b) /\
  Rabs (val (div a b) - val a / val b)
    <= 1.12e-16 * Rabs (val a / val b) + 1e-323.
Proof.
  intros Ha Hb Hn Hr.
  destruct a as [| |sa|x], b as [| |sb|y]; try contradiction; simpl in *;
    try (exfalso; apply Hn; reflexivity);
    try (apply round_model; assumption).
  split; [exact I|]. replace (0 - 0 / y) with 0 by (field; assumption).
  replace (0 / y) with 0 by (field; assumption). rewrite Rabs_R0. lra.
Qed.

(** *** Conservation of the shares *)

(** The lever branch: the two shares add up to 1 within [1e-6] as long as
    the offset is at most [1e9] times the spacing. *)
Lemma lever_sum weight c s :
  format c -> format s -> 0 < s -> 1 < Rabs c ->
  Rabs c <= 1e9 * s -> Rabs c <= 1e299 -> s <= 1e299 ->
  exists x,
    sum (LoadDistribution.legLoads
           (calculateLoadDistribution weight 2 (Fin c) (Fin s))) = Fin x /\
    Rabs (x - 1) <= 1e-6.
Proof.
  intros Hfc Hfs Hs Hc HK Hcb Hsb.
  rewrite lever_branch by assumption. cbn [LoadDistribution.legLoads].
  rewrite (half_exact s Hfs) by lra.
  pose proof (Rle_abs c) as HA1. pose proof (Rle_abs (- c)) as HA2.
  rewrite Rabs_Ropp in HA2. set (A := Rabs c) in *.
  (* distances *)
  destruct (add_model (Fin (s / 2)) (Fin c) I I) as [FA EA].
  { simpl. apply Rabs_le. lra. }
  destruct (add_model (Fin (s / 2)) (Fin (- c)) I I) as [FB EB].
  { simpl. apply Rabs_le. lra. }
  unfold sub. cbn [opp]. cbn [val] in EA, EB.
  set (dA := add (Fin (s / 2)) (Fin c)) in *.
  set (dB := add (Fin (s / 2)) (Fin (- c))) in *.
  assert (EA' : Rabs (val dA - (s / 2 + c)) <= 1.12e-16 * (s / 2 + A) + 1e-323).
  { eapply Rle_trans; [exact EA|].
    assert (Rabs (s / 2 + c) <= s / 2 + A) by (apply Rabs_le; lra). lra. }
  assert (EB' : Rabs (val dB - (s / 2 + - c)) <= 1.12e-16 * (s / 2 + A) + 1e-323).
  { eapply Rle_trans; [exact EB|].
    assert (Rabs (s / 2 + - c) <= s / 2 + A) by (apply Rabs_le; lra). lra. }
  clear EA EB. apply Rabs_le_inv in EA', EB'.
  (* their total *)
  assert (HT : 0.99 * s <= val dA + val dB <= 1.01 * s) by lra.
  destruct (add_model dA dB FA FB) as [Ft Et].
  { apply Rabs_le. lra. }
  set (total := add dA dB) in *.
  rewrite (Rabs_pos_eq (val dA + val dB)) in Et by lra. apply Rabs_le_inv in Et.
  assert (Hvt : 0.98 * s <= val total <= 1.02 * s) by lra.
  (* shares *)
  assert (HqA : - 1.1e9 <= val dA / val total <= 1.1e9) by (apply div_bounds; lra).
  assert (HqB : - 1.1e9 <= val dB / val total <= 1.1e9) by (apply div_bounds; lra).
  destruct (div_model dB total FB Ft) as [Fa Ea]; [lra|apply Rabs_le; lra|].
  destruct (div_model dA total FA Ft) as [Fb Eb]; [lra|apply Rabs_le; lra|].
  set (a := div dB total) in *. set (b := div dA total) in *.
  assert (Ea' : Rabs (val a - val dB / val total) <= 1.24e-7).
  { eapply Rle_trans; [exact Ea|].
    assert (Rabs (val dB / val total) <= 1.1e9) by (apply Rabs_le; lra). lra. }
  assert (Eb' : Rabs (val b - val dA / val total) <= 1.24e-7).
  { eapply Rle_trans; [exact Eb|].
    assert (Rabs (val dA / val total) <= 1.1e9) by (apply Rabs_le; lra). lra. }
  clear Ea Eb. apply Rabs_le_inv in Ea', Eb'.
  assert (Hrho : - 2e-16 <= (val dA + val dB - val total) / val total <= 2e-16)
    by (apply div_bounds; lra).
  assert (Hid : val dB / val total + val dA / val total - 1
                = (val dA + val dB - val total) / val total) by (field; lra).
  (* the sum *)
  unfold sum. cbn [fold_left].
  destruct (add_zero_l a Fa) as [F1 E1].
  destruct (add_model (add (Zero false) a) b F1 Fb) as [FS ES].
  { rewrite E1. apply Rabs_le. lra. }
  rewrite E1 in ES.
  assert (ES' : Rabs (val (add (add (Zero false) a) b) - (val a + val b)) <= 1e-9).
  { eapply Rle_trans; [exact ES|].
    assert (Rabs (val a + val b) <= 2) by (apply Rabs_le; lra). lra. }
  apply Rabs_le_inv in ES'.
  exists (val (add (add (Zero false) a) b)). split.
  - apply finite_Fin; [assumption|lra].
  - apply Rabs_le. lra.
Qed.

(** The equal split: [k] shares of [1/legs], added from the left. *)
Lemma partial_sum q m :
  finite q -> 0 <= val q -> m * val q <= 1.0000001 -> m <= 4294967296 ->
  forall k : nat, INR k <= m ->
  finite (fold_left add (repeat q k) (Zero false)) /\
  Rabs (val (fold_left add (repeat q k) (Zero false)) - INR k * val q)
    <= INR k * 1.13e-16.
Proof.
  intros Hq Hq0 Hmq Hm. induction k as [|k IH]; intros Hk.
  - simpl. split; [exact I|]. replace (0 - 0 * val q) with 0 by ring.
    rewrite Rabs_R0. lra.
  - rewrite S_INR in *. pose proof (pos_INR k) as Hk0.
    destruct IH as [FS ES]; [lra|].
    replace (repeat q (S k)) with (repeat q k ++ [q]) by (symmetry; apply repeat_cons).
    rewrite fold_left_app. cbn [fold_left].
    set (S := fold_left add (repeat q k) (Zero false)) in *.
    apply Rabs_le_inv in ES.
    assert (Hle : (INR k + 1) * val q <= m * val q)
      by (apply Rmult_le_compat_r; lra).
    assert (Hnn : 0 <= INR k * val q) by (apply Rmult_le_pos; lra).
    destruct (add_model S q FS Hq) as [FS' ES']; [apply Rabs_le; lra|].
    split; [assumption|].
    assert (Hb : Rabs (val S + val q) <= 1.000001) by (apply Rabs_le; lra).
    apply Rabs_le_inv in ES'. apply Rabs_le. lra.
Qed.

Lemma INR_bounds n :
  (1 <= Z.of_nat n < 2 ^ 32)%Z -> 1 <= INR n <= 4294967295.
Proof.
  intros [H1 H2]. rewrite INR_IZR_INZ. split; apply IZR_le; lia.
Qed.

Lemma of_nat_exact n :
  (1 <= Z.of_nat n < 2 ^ 32)%Z -> of_nat n = Fin (INR n).
Proof.
  intros H. unfold of_nat. rewrite INR_IZR_INZ. apply round_IZR; lia.
Qed.

Lemma equal_sum n :
  (1 <= Z.of_nat n < 2 ^ 32)%Z ->
  exists x,
    sum (repeat (div (round 1) (of_nat n)) n) = Fin x /\ Rabs (x - 1) <= 1e-6.
Proof.
  intros Hn. pose proof (INR_bounds n Hn) as Hm.
  rewrite (of_nat_exact n Hn), round_1. cbn [div].
  set (m := INR n) in *. set (p := 1 / m).
  assert (Hmp : m * p = 1) by (unfold p; field; lra).
  assert (Hp : / 4294967295 <= p <= 1).
  { unfold p. split.
    - replace (1 / m) with (/ m) by (field; lra). apply Rinv_le_contravar; lra.
    - destruct (div_bounds 1 m 0 1) as [_ H]; [lra|lra|exact H]. }
  destruct (round_model p) as [Fq Eq]; [rewrite Rabs_pos_eq; lra|].
  rewrite (Rabs_pos_eq p) in Eq by lra. apply Rabs_le_inv in Eq.
  set (q := round p) in *.
  assert (H1 : m * (val q - p) <= m * (1.12e-16 * p + 1e-323))
    by (apply Rmult_le_compat_l; lra).
  assert (H2 : m * (- (1.12e-16 * p + 1e-323)) <= m * (val q - p))
    by (apply Rmult_le_compat_l; lra).
  destruct (partial_sum q m Fq ltac:(lra) ltac:(lra) ltac:(lra) n (Rle_refl _))
    as [FS ES].
  fold m in ES. apply Rabs_le_inv in ES.
  exists (val (sum (repeat q n))). unfold sum in *. split.
  - apply finite_Fin; [assumption|lra].
  - apply Rabs_le. lra.
Qed.

(** C7, amended.  For every weight and every leg count from 1 up to the
    largest array length ([2^32 - 1]), the shares returned by
    [calculateLoadDistribution], added from the left starting at 0, sum to 1
    within [1e-6], provided that, when the lever branch is taken, the offset
    and spacing are doubles within [leverInputsInRange]: an offset of at most
    [1e9] times the spacing, both at most [1e299]. *)
Theorem C7_leg_loads_sum_binary64
    (weight : double) (legs : nat) (cogOffset spacing : double) :
  (1 <= Z.of_nat legs < 2 ^ 32)%Z ->
  ((Nat.eqb legs 2 && gt spacing (Zero false)
      && gt (Math_abs cogOffset) (round 1))%bool = true ->
   leverInputsInRange cogOffset spacing) ->
  exists x,
    sum (LoadDistribution.legLoads
           (calculateLoadDistribution weight legs cogOffset spacing)) = Fin x /\
    Rabs (x - 1) <= 1e-6.
Proof.
  intros Hlegs Hrange.
  destruct (Nat.eqb legs 2 && gt spacing (Zero false)
              && gt (Math_abs cogOffset) (round 1))%bool eqn:Hg.
  - specialize (Hrange eq_refl).
    apply andb_prop in Hg. destruct Hg as [Hg Hg3].
    apply andb_prop in Hg. destruct Hg as [Hg1 Hg2].
    apply Nat.eqb_eq in Hg1. subst legs.
    destruct cogOffset as [| | |c]; try contradiction.
    destruct spacing as [| | |s]; try contradiction.
    destruct Hrange as (Hfc & Hfs & HK & Hcb & Hsb).
    rewrite round_1 in Hg3. unfold gt, lt in Hg2, Hg3. simpl in Hg2, Hg3.
    destruct (Rlt_dec 0 s); [|discriminate].
    destruct (Rlt_dec 1 (Rabs c)); [|discriminate].
    now apply lever_sum.
  - unfold calculateLoadDistribution. rewrite Hg. cbn [LoadDistribution.legLoads].
    now apply equal_sum.
Qed.

(** ** The absorbed spacing, and the theorems at concrete inputs *)

(** *** Evaluating the rounding at a given number *)

Lemma rnd_eval x k q :
  (-1074 <= q)%Z -> bpow (q + 52) <= Rabs x < bpow (q + 53) ->
  Rabs (x * bpow (- q) - IZR k) < 1 / 2 ->
  rnd x = IZR k * bpow q.
Proof.
  intros Hq Hx Hk.
  assert (Hm : mag x = (q + 53)%Z).
  { apply mag_unique. now replace (q + 53 - 1)%Z with (q + 52)%Z by lia. }
  unfold rnd, cexp. rewrite Hm. replace (Z.max (q + 53 - 53) (-1074)) with q by lia.
  now rewrite (ZnearestE_unique _ k).
Qed.

Lemma bpow_11 : bpow 11 = 2048.
Proof. rewrite bpow_IZR by lia. reflexivity. Qed.

Lemma bpow_m11 : bpow (- (11)) = / 2048.
Proof. rewrite bpow_opp, bpow_11. reflexivity. Qed.

Lemma bpow_63 : bpow 63 = 9223372036854775808.
Proof. rewrite bpow_IZR by lia. reflexivity. Qed.

Lemma bpow_64 : bpow 64 = 18446744073709551616.
Proof. rewrite bpow_IZR by lia. reflexivity. Qed.

(** [1000 + 1e19] and [1000 - 1e19]: the spacing disappears. *)
Lemma absorbed_pos :
  round (2000 / 2 + 10000000000000000000) = Fin 10000000000000000000.
Proof.
  assert (H : rnd (2000 / 2 + 10000000000000000000) = 10000000000000000000).
  { rewrite (rnd_eval _ 4882812500000000 11).
    - rewrite bpow_11. lra.
    - lia.
    - change (11 + 52)%Z with 63%Z. change (11 + 53)%Z with 64%Z.
      rewrite bpow_63, bpow_64, Rabs_pos_eq; lra.
    - change (- 11)%Z with (- (11))%Z. rewrite bpow_m11. apply Rabs_def1; lra. }
  unfold round. rewrite H. pose proof bpow_1024_gt.
  destruct (Rle_dec _ _) as [Ho|_]; [rewrite Rabs_pos_eq in Ho; lra|].
  destruct (Req_dec_T _ _); [lra|reflexivity].
Qed.

Lemma absorbed_neg :
  round (2000 / 2 + Ropp 10000000000000000000) = Fin (Ropp 10000000000000000000).
Proof.
  assert (H : rnd (2000 / 2 + Ropp 10000000000000000000)
              = Ropp 10000000000000000000).
  { rewrite (rnd_eval _ (- 4882812500000000) 11).
    - rewrite bpow_11. lra.
    - lia.
    - change (11 + 52)%Z with 63%Z. change (11 + 53)%Z with 64%Z.
      rewrite bpow_63, bpow_64, Rabs_left; lra.
    - change (- 11)%Z with (- (11))%Z. rewrite bpow_m11. apply Rabs_def1; lra. }
  unfold round. rewrite H. pose proof bpow_1024_gt.
  destruct (Rle_dec _ _) as [Ho|_]; [rewrite Rabs_left in Ho; lra|].
  destruct (Req_dec_T _ _); [lra|reflexivity].
Qed.

Lemma format_2000 : format 2000.
Proof. apply (format_IZR 2000). reflexivity. Qed.

(** The shares at [cogOffset = 1e19], [spacing = 2000]. *)
Lemma absorbed_shares weight :
  let r := calculateLoadDistribution weight 2 (Fin 10000000000000000000) (Fin 2000) in
  LoadDistribution.legLoads r = [Inf true; Inf false] /\
  LoadDistribution.maxTension r
    = Math_max [mul (mul weight GRAVITY) (Inf true); mul (mul weight GRAVITY) (Inf false)] /\
  LoadDistribution.minTension r
    = Math_min [mul (mul weight GRAVITY) (Inf true); mul (mul weight GRAVITY) (Inf false)].
Proof.
  intros r. unfold r. rewrite lever_branch by (try rewrite Rabs_pos_eq; lra).
  cbn [LoadDistribution.legLoads LoadDistribution.maxTension LoadDistribution.minTension].
  rewrite (half_exact 2000 format_2000) by lra.
  unfold sub. cbn [opp add]. rewrite absorbed_pos, absorbed_neg. cbn [add].
  replace (10000000000000000000 + Ropp 10000000000000000000) with 0 by lra.
  rewrite round_0. cbn [div sign]. rewrite negative_true, negative_false by lra.
  repeat split.
Qed.

(** *** Overflow and underflow *)

Lemma rnd_underflow r : Rabs r < bpow (-1075) -> rnd r = 0.
Proof.
  intros Hr. destruct (Req_dec r 0) as [->|Hn]; [apply rnd_0|].
  destruct (mag_spec r Hn) as [Hm _].
  assert (Hlt : (mag r - 1 < -1075)%Z) by (apply bpow_lt_inv; lra).
  unfold rnd, cexp. replace (Z.max (mag r - 53) (-1074)) with (-1074)%Z by lia.
  rewrite (ZnearestE_unique _ 0); [ring|].
  rewrite Rminus_0_r, Rabs_mult, (Rabs_pos_eq (bpow _)) by (apply Rlt_le, bpow_gt_0).
  change (- -1074)%Z with 1074%Z.
  assert (E : bpow (-1075) * bpow 1074 = 1 / 2).
  { rewrite <- bpow_plus. change (-1075 + 1074)%Z with (Z.opp 1).
    rewrite bpow_opp, bpow_1. lra. }
  pose proof (bpow_gt_0 1074). nra.
Qed.

Lemma round_underflow r :
  r < 0 -> - bpow (-1075) < r -> round r = Zero true.
Proof.
  intros H1 H2. unfold round. rewrite rnd_underflow by (rewrite Rabs_left; lra).
  rewrite Rabs_R0. destruct (Rle_dec _ _) as [H|_]; [pose proof (bpow_gt_0 1024); lra|].
  destruct (Req_dec_T 0 0); [|contradiction]. now rewrite negative_true.
Qed.

Lemma round_overflow r : bpow 1024 <= r -> round r = Inf false.
Proof.
  intros Hr. pose proof (bpow_gt_0 1024).
  assert (bpow 1024 <= rnd r).
  { rewrite <- (rnd_format (bpow 1024)) by (apply format_bpow; lia). now apply rnd_le. }
  unfold round. destruct (Rle_dec _ _) as [_|H']; [now rewrite negative_false by lra|].
  rewrite Rabs_pos_eq in H' by lra. lra.
Qed.

Lemma bpow_neg_11 : bpow (-11) = / 2048.
Proof. change (-11)%Z with (Z.opp 11). rewrite bpow_opp, bpow_11. reflexivity. Qed.

Lemma format_dyadic n : (Z.abs n < 2 ^ 53)%Z -> format (IZR n / 2048).
Proof.
  intros H. exists n, (-11)%Z. rewrite bpow_neg_11. split; [field|split; [assumption|lia]].
Qed.

Lemma round_dyadic n :
  n <> 0%Z -> (Z.abs n < 2 ^ 53)%Z -> round (IZR n / 2048) = Fin (IZR n / 2048).
Proof.
  intros Hn Hb. apply round_format.
  - now apply format_dyadic.
  - assert (IZR n <> 0) by now apply not_0_IZR. intros E. apply H.
    replace (IZR n) with (IZR n / 2048 * 2048) by field. rewrite E. ring.
  - pose proof bpow_1024_gt.
    assert (Rabs (IZR n) < 9007199254740992).
    { rewrite <- abs_IZR. replace 9007199254740992 with (IZR (2 ^ 53)) by reflexivity.
      now apply IZR_lt. }
    unfold Rdiv. rewrite Rabs_mult, (Rabs_pos_eq (/ 2048)) by lra. lra.
Qed.

(** The shares at [cogOffset = 1025], [spacing = 2048] are exact:
    [-1/2048] and [2049/2048]. *)
Lemma offset_shares weight :
  let r := calculateLoadDistribution weight 2 (Fin 1025) (Fin 2048) in
  let fa := mul (mul weight GRAVITY) (Fin (IZR (-1) / 2048)) in
  let fb := mul (mul weight GRAVITY) (Fin (2049 / 2048)) in
  LoadDistribution.legLoads r = [Fin (IZR (-1) / 2048); Fin (2049 / 2048)] /\
  LoadDistribution.minTension r = Math_min [fa; fb] /\
  LoadDistribution.imbalanceRatio r = div (Math_max [fa; fb]) (Math_min [fa; fb]) /\
  LoadDistribution.isBalanced r
    = le (div (Math_max [fa; fb]) (Math_min [fa; fb])) (round 1.1).
Proof.
  intros r. unfold r. rewrite lever_branch by (try rewrite Rabs_pos_eq; lra).
  cbn [LoadDistribution.legLoads LoadDistribution.minTension
       LoadDistribution.imbalanceRatio LoadDistribution.isBalanced].
  rewrite half_exact by (try (apply (format_IZR 2048); reflexivity); lra).
  unfold sub. cbn [opp add].
  replace (2048 / 2 + 1025) with 2049 by lra.
  replace (2048 / 2 + Ropp 1025) with (IZR (-1)) by lra.
  rewrite (round_IZR 2049), (round_IZR (-1)) by (try lia; reflexivity). cbn [add].
  replace (2049 + IZR (-1)) with 2048 by lra.
  rewrite (round_IZR 2048) by (try lia; reflexivity). cbn [div].
  rewrite (round_dyadic (-1)), (round_dyadic 2049) by (try lia; reflexivity).
  repeat split.
Qed.


Lemma bpow_1022_ge_1 : 1 <= bpow 1022.
Proof. rewrite <- bpow_0. apply bpow_le. lia. Qed.

Lemma bpow_1023_double : bpow 1023 = 2 * bpow 1022.
Proof. change 1023%Z with (1 + 1022)%Z. now rewrite bpow_plus, bpow_1. Qed.

Lemma bpow_1024_double : bpow 1024 = 2 * bpow 1023.
Proof. change 1024%Z with (1 + 1023)%Z. now rewrite bpow_plus, bpow_1. Qed.

Lemma half_of_largest_power : div (Fin (bpow 1023)) (round 2) = Fin (bpow 1022).
Proof.
  rewrite round_2. cbn [div]. pose proof bpow_1022_ge_1.
  replace (bpow 1023 / 2) with (bpow 1022) by (rewrite bpow_1023_double; field).
  apply round_format; [apply format_bpow; lia|lra|].
  rewrite Rabs_pos_eq by lra. apply bpow_lt. lia.
Qed.

(** The shares at [cogOffset = 3 * 2^1022], [spacing = 2^1023]:
    [spacing/2 + cogOffset] overflows. *)
Lemma overflowing_shares weight :
  let r := calculateLoadDistribution weight 2 (Fin (3 * bpow 1022)) (Fin (bpow 1023)) in
  let fa := mul (mul weight GRAVITY) (Zero true) in
  let fb := mul (mul weight GRAVITY) NaN in
  LoadDistribution.legLoads r = [Zero true; NaN] /\
  LoadDistribution.imbalanceRatio r = div (Math_max [fa; fb]) (Math_min [fa; fb]) /\
  LoadDistribution.isBalanced r
    = le (div (Math_max [fa; fb]) (Math_min [fa; fb])) (round 1.1).
Proof.
  intros r. unfold r. pose proof bpow_1022_ge_1 as H1. pose proof (bpow_gt_0 1023) as H2.
  rewrite lever_branch by (try rewrite Rabs_pos_eq; lra).
  cbn [LoadDistribution.legLoads LoadDistribution.imbalanceRatio
       LoadDistribution.isBalanced].
  rewrite half_of_largest_power. unfold sub. cbn [opp add].
  rewrite (round_overflow (bpow 1022 + 3 * bpow 1022))
    by (rewrite bpow_1024_double, bpow_1023_double; lra).
  replace (bpow 1022 + Ropp (3 * bpow 1022)) with (Ropp (bpow 1023))
    by (rewrite bpow_1023_double; ring).
  rewrite (round_format (Ropp (bpow 1023))).
  - cbn [add div sign]. rewrite negative_true by lra. repeat split.
  - apply format_opp, format_bpow. lia.
  - lra.
  - rewrite Rabs_Ropp, Rabs_pos_eq by lra. apply bpow_lt. lia.
Qed.

Lemma largest_power_force : mul (Fin (bpow 1023)) GRAVITY = Inf false.
Proof.
  unfold GRAVITY. destruct round_gravity as (G & -> & HG). cbn [mul].
  apply round_overflow. rewrite bpow_1024_double. pose proof (bpow_gt_0 1023). nra.
Qed.

Lemma smallest_force :
  exists F, mul (Fin (bpow (-1074))) GRAVITY = Fin F /\
    bpow (-1074) <= F <= 10 * bpow (-1074).
Proof.
  unfold GRAVITY. destruct round_gravity as (G & -> & HG). cbn [mul].
  pose proof (bpow_gt_0 (-1074)) as Ht. pose proof tiny_bound. pose proof huge_bound.
  assert (Hf : format (10 * bpow (-1074))).
  { exists 10%Z, (-1074)%Z. split; [reflexivity|split; [reflexivity|lia]]. }
  assert (Hu : rnd (bpow (-1074) * G) <= 10 * bpow (-1074)).
  { rewrite <- (rnd_format _ Hf). apply rnd_le. nra. }
  destruct (round_val (bpow (-1074) * G)) as [Hfin Hval].
  { rewrite Rabs_pos_eq by nra. nra. }
  destruct (round_pos (bpow (-1074) * G)) as [E|(y & E & Hy)]; [nra| |].
  - rewrite E in Hfin. contradiction.
  - rewrite E in Hval. cbn [val] in Hval. exists y. split; [exact E|]. lra.
Qed.

Lemma format_1025 : binary64 (Fin 1025).
Proof.
  simpl. split; [lra|]. split; [apply (format_IZR 1025); reflexivity|].
  pose proof bpow_1024_gt. rewrite Rabs_pos_eq by lra. lra.
Qed.

(** C7, counterexamples.  At weight 1000, two legs, [cogOffset = 1e19] and
    [spacing = 2000] the rounding absorbs [spacing/2] into the offset, the
    total distance is 0, the shares are [-Infinity] and [+Infinity] and
    their sum is [NaN].  At [cogOffset = 3 * 2^1022] and [spacing = 2^1023]
    the distance to leg A overflows, the shares are [-0] and [NaN] and their
    sum is [NaN].  For a leg count of 0 the list of shares is empty and its
    sum is 0. *)
Lemma C7_shares_not_conserved :
  (LoadDistribution.legLoads
     (calculateLoadDistribution (Fin 1000) 2 (Fin 10000000000000000000) (Fin 2000))
     = [Inf true; Inf false] /\
   sum (LoadDistribution.legLoads
          (calculateLoadDistribution (Fin 1000) 2 (Fin 10000000000000000000) (Fin 2000)))
     = NaN) /\
  (LoadDistribution.legLoads
     (calculateLoadDistribution (Fin 1000) 2 (Fin (3 * bpow 1022)) (Fin (bpow 1023)))
     = [Zero true; NaN] /\
   sum (LoadDistribution.legLoads
          (calculateLoadDistribution (Fin 1000) 2 (Fin (3 * bpow 1022)) (Fin (bpow 1023))))
     = NaN) /\
  sum (LoadDistribution.legLoads
         (calculateLoadDistribution (Fin 1000) 0 (Zero false) (Fin 2000)))
    = Zero false.
Proof.
  destruct (absorbed_shares (Fin 1000)) as (H & _). cbv zeta in H.
  destruct (overflowing_shares (Fin 1000)) as (H' & _). cbv zeta in H'.
  rewrite H, H'. repeat split.
Qed.

(** The amended C7 on the off-centre lift of the test suite. *)
Lemma C7_leg_loads_sum_binary64_witness :
  (1 <= Z.of_nat 2 < 2 ^ 32)%Z /\
  leverInputsInRange (Fin 100) (Fin 2000) /\
  exists x,
    sum (LoadDistribution.legLoads
           (calculateLoadDistribution (Fin 1000) 2 (Fin 100) (Fin 2000))) = Fin x /\
    Rabs (x - 1) <= 1e-6.
Proof.
  assert (H1 : (1 <= Z.of_nat 2 < 2 ^ 32)%Z) by (simpl; lia).
  assert (H2 : leverInputsInRange (Fin 100) (Fin 2000)).
  { simpl. split; [apply (format_IZR 100); reflexivity|].
    split; [exact format_2000|]. rewrite Rabs_pos_eq by lra. lra. }
  split; [exact H1|]. split; [exact H2|].
  apply (C7_leg_loads_sum_binary64 (Fin 1000) 2 (Fin 100) (Fin 2000) H1).
  intros _. exact H2.
Defined.

Lemma weight_1000_force :
  exists F, mul (Fin 1000) GRAVITY = Fin F /\ 0 < F.
Proof.
  unfold GRAVITY. destruct round_gravity as (G & -> & HG). cbn [mul].
  destruct (round_pos_model (1000 * G)) as (F & -> & HF); [lra|].
  exists F. split; [reflexivity|lra].
Qed.

(** The claim at [cogOffset = 1e19], [spacing = 2000]: the spacing is
    absorbed and the total distance is 0. *)
Lemma absorbed_spacing_scenario :
  cogOutsidePickPoints (Fin 1000) (Fin 10000000000000000000) (Fin 2000) = true /\
  LoadDistribution.imbalanceRatio
    (calculateLoadDistribution (Fin 1000) 2 (Fin 10000000000000000000) (Fin 2000)) = NaN /\
  LoadDistribution.isBalanced
    (calculateLoadDistribution (Fin 1000) 2 (Fin 10000000000000000000) (Fin 2000)) = false.
Proof.
  split.
  - unfold cogOutsidePickPoints.
    rewrite (half_exact 2000 format_2000), round_1 by lra.
    unfold gt, lt. simpl. repeat (destruct (Rlt_dec _ _); [|lra]). reflexivity.
  - rewrite lever_branch by (try rewrite Rabs_pos_eq; lra).
    cbn [LoadDistribution.imbalanceRatio LoadDistribution.isBalanced].
    rewrite (half_exact 2000 format_2000) by lra.
    unfold sub. cbn [opp add]. rewrite absorbed_pos, absorbed_neg. cbn [add].
    replace (10000000000000000000 + Ropp 10000000000000000000) with 0 by lra.
    rewrite round_0. cbn [div sign]. rewrite negative_true, negative_false by lra.
    destruct weight_1000_force as (F & -> & HF). cbn [mul sign xorb].
    rewrite negative_false by lra. split; reflexivity.
Qed.

(** A weight of [2^1023]: the total force overflows. *)
Lemma weight_overflow_scenario :
  cogOutsidePickPoints (Fin (bpow 1023)) (Fin 1025) (Fin 2048) = true /\
  LoadDistribution.imbalanceRatio
    (calculateLoadDistribution (Fin (bpow 1023)) 2 (Fin 1025) (Fin 2048)) = NaN /\
  LoadDistribution.isBalanced
    (calculateLoadDistribution (Fin (bpow 1023)) 2 (Fin 1025) (Fin 2048)) = false.
Proof.
  destruct (offset_shares (Fin (bpow 1023))) as (_ & _ & Hr & Hb). cbv zeta in Hr, Hb.
  rewrite Hb, Hr, largest_power_force. cbn [mul sign xorb].
  rewrite negative_true, negative_false by lra.
  split; [|split; reflexivity].
  unfold cogOutsidePickPoints.
  rewrite half_exact by (try (apply (format_IZR 2048); reflexivity); lra).
  rewrite round_1. unfold gt, lt. simpl. pose proof (bpow_gt_0 1023).
  repeat (destruct (Rlt_dec _ _); [|lra]). reflexivity.
Qed.

(** A weight of [2^-1074], the smallest positive double: the force on leg A
    underflows to [-0]. *)
Lemma weight_underflow_scenario :
  cogOutsidePickPoints (Fin (bpow (-1074))) (Fin 1025) (Fin 2048) = true /\
  LoadDistribution.minTension
    (calculateLoadDistribution (Fin (bpow (-1074))) 2 (Fin 1025) (Fin 2048)) = Zero true /\
  lt (LoadDistribution.minTension
        (calculateLoadDistribution (Fin (bpow (-1074))) 2 (Fin 1025) (Fin 2048)))
     (Zero false) = false.
Proof.
  destruct (offset_shares (Fin (bpow (-1074)))) as (_ & Hm & _). cbv zeta in Hm.
  pose proof (bpow_gt_0 (-1074)) as Ht.
  assert (Hmin : LoadDistribution.minTension
            (calculateLoadDistribution (Fin (bpow (-1074))) 2 (Fin 1025) (Fin 2048))
          = Zero true).
  { rewrite Hm. destruct smallest_force as (F & -> & HF). cbn [mul].
    assert (E : bpow (-1075) = bpow (-1074) / 2).
    { change (-1074)%Z with (1 + -1075)%Z. rewrite bpow_plus, bpow_1. field. }
    rewrite (round_underflow (F * (IZR (-1) / 2048))) by (rewrite ?E; lra).
    destruct (round_pos (F * (2049 / 2048))) as [->|(y & -> & Hy)]; [lra| |].
    - reflexivity.
    - unfold Math_min. simpl. destruct (Rlt_dec y 0); [lra|reflexivity]. }
  rewrite Hmin. split; [|split; [reflexivity|]].
  - unfold cogOutsidePickPoints.
    rewrite half_exact by (try (apply (format_IZR 2048); reflexivity); lra).
    rewrite round_1. unfold gt, lt. simpl.
    repeat (destruct (Rlt_dec _ _); [|lra]). reflexivity.
  - unfold lt. simpl. destruct (Rlt_dec 0 0); [lra|reflexivity].
Qed.

(** An offset of [3 * 2^1022] on a spacing of [2^1023]: the distance to leg A
    overflows. *)
Lemma distance_overflow_scenario :
  cogOutsidePickPoints (Fin 1000) (Fin (3 * bpow 1022)) (Fin (bpow 1023)) = true /\
  LoadDistribution.imbalanceRatio
    (calculateLoadDistribution (Fin 1000) 2 (Fin (3 * bpow 1022)) (Fin (bpow 1023))) = NaN /\
  LoadDistribution.isBalanced
    (calculateLoadDistribution (Fin 1000) 2 (Fin (3 * bpow 1022)) (Fin (bpow 1023))) = false.
Proof.
  destruct (overflowing_shares (Fin 1000)) as (_ & Hr & Hb). cbv zeta in Hr, Hb.
  rewrite Hb, Hr. destruct weight_1000_force as (F & -> & HF). cbn [mul sign xorb].
  rewrite negative_false by lra.
  split; [|split; reflexivity].
  unfold cogOutsidePickPoints. rewrite half_of_largest_power, round_1.
  unfold gt, lt. simpl. pose proof bpow_1022_ge_1. pose proof (bpow_gt_0 1023).
  repeat (destruct (Rlt_dec _ _); [|lra]). reflexivity.
Qed.

(** C10, counterexamples.  Each of these inputs meets every condition of the
    claim (weight and spacing above 0, offset above [spacing/2] and above 1).
    At (1000, 1e19, 2000) the spacing is absorbed, at weight [2^1023] the
    force overflows, at (1000, 3 * 2^1022, 2^1023) the distance overflows:
    the imbalance ratio is [NaN], not negative, and [isBalanced] is false.
    At weight [2^-1074] the force on leg A underflows and [minTension] is
    [-0], which is not below 0. *)
Lemma C10_rounding_breaks_the_sign_rule :
  (cogOutsidePickPoints (Fin 1000) (Fin 10000000000000000000) (Fin 2000) = true /\
   LoadDistribution.imbalanceRatio
     (calculateLoadDistribution (Fin 1000) 2 (Fin 10000000000000000000) (Fin 2000)) = NaN /\
   LoadDistribution.isBalanced
     (calculateLoadDistribution (Fin 1000) 2 (Fin 10000000000000000000) (Fin 2000)) = false) /\
  (cogOutsidePickPoints (Fin (bpow 1023)) (Fin 1025) (Fin 2048) = true /\
   LoadDistribution.imbalanceRatio
     (calculateLoadDistribution (Fin (bpow 1023)) 2 (Fin 1025) (Fin 2048)) = NaN /\
   LoadDistribution.isBalanced
     (calculateLoadDistribution (Fin (bpow 1023)) 2 (Fin 1025) (Fin 2048)) = false) /\
  (cogOutsidePickPoints (Fin 1000) (Fin (3 * bpow 1022)) (Fin (bpow 1023)) = true /\
   LoadDistribution.imbalanceRatio
     (calculateLoadDistribution (Fin 1000) 2 (Fin (3 * bpow 1022)) (Fin (bpow 1023))) = NaN /\
   LoadDistribution.isBalanced
     (calculateLoadDistribution (Fin 1000) 2 (Fin (3 * bpow 1022)) (Fin (bpow 1023))) = false) /\
  (cogOutsidePickPoints (Fin (bpow (-1074))) (Fin 1025) (Fin 2048) = true /\
   LoadDistribution.minTension
     (calculateLoadDistribution (Fin (bpow (-1074))) 2 (Fin 1025) (Fin 2048)) = Zero true /\
   lt (LoadDistribution.minTension
         (calculateLoadDistribution (Fin (bpow (-1074))) 2 (Fin 1025) (Fin 2048)))
      (Zero false) = false).
Proof.
  split; [exact absorbed_spacing_scenario|].
  split; [exact weight_overflow_scenario|].
  split; [exact distance_overflow_scenario|exact weight_underflow_scenario].
Qed.

(** The amended C10 for 1000 kg on 2000 mm spacing with the centre of gravity
    1500 mm off centre. *)
Lemma C10_cog_outside_pick_points_binary64_witness :
  binary64 (Fin 1000) /\ binary64 (Fin 1500) /\ binary64 (Fin 2000) /\
  let r := calculateLoadDistribution (Fin 1000) 2 (Fin 1500) (Fin 2000) in
  lt (LoadDistribution.minTension r) (Zero false) = true /\
  lt (LoadDistribution.imbalanceRatio r) (Zero false) = true /\
  LoadDistribution.isBalanced r = true.
Proof.
  assert (Hb : forall n, (0 < n < 2 ^ 53)%Z -> binary64 (Fin (IZR n))).
  { intros n Hn. simpl. split; [apply not_0_IZR; lia|].
    split; [apply format_IZR; lia|].
    pose proof bpow_1024_gt. rewrite <- abs_IZR.
    assert (IZR (Z.abs n) < IZR (2 ^ 53)) by (apply IZR_lt; lia).
    assert (IZR (2 ^ 53) <= 1e300).
    { replace (IZR (2 ^ 53)) with 9007199254740992 by reflexivity. lra. }
    lra. }
  assert (H1 : binary64 (Fin 1000)) by (apply (Hb 1000%Z); lia).
  assert (H2 : binary64 (Fin 1500)) by (apply (Hb 1500%Z); lia).
  assert (H3 : binary64 (Fin 2000)) by (apply (Hb 2000%Z); lia).
  split; [exact H1|]. split; [exact H2|]. split; [exact H3|].
  destruct (C10_cog_outside_pick_points_binary64 1000 1500 2000 H1 H2 H3)
    as (_ & Hmin & Hratio & Hbal); try lra.
  intros r. repeat split; assumption.
Defined.

(** C3, counterexamples.  With a sling rating of 0 the margin at zero
    tension is [NaN] and the sling is reported inadequate; with a rating of
    1000 kg and a tension of [-0], which also equals 0, the margin is
    [-Infinity] and the sling is reported inadequate. *)
Lemma C3_zero_WLL_or_negative_zero_tension :
  let r0 := calculateSafetyFactors (Zero false) (Zero false) vertical in
  let rm := calculateSafetyFactors (Zero true) (Fin 1000) vertical in
  SafetyAnalysis.safetyMargin r0 = NaN /\
  SafetyAnalysis.isWLLAdequate r0 = false /\
  SafetyAnalysis.safetyMargin rm = Inf true /\
  SafetyAnalysis.isWLLAdequate rm = false.
Proof.
  intros r0 rm. unfold r0, rm, calculateSafetyFactors.
  cbn [SafetyAnalysis.safetyMargin SafetyAnalysis.isWLLAdequate].
  rewrite effective_WLL_zero.
  assert (Hb : binary64 (Fin 1000)).
  { simpl. split; [lra|]. split; [apply (format_IZR 1000); reflexivity|].
    pose proof bpow_1024_gt. rewrite Rabs_pos_eq by lra. lra. }
  assert (Hgt : gt (Fin 1000) (Zero false) = true).
  { unfold gt, lt. simpl. destruct (Rlt_dec 0 1000); [reflexivity|lra]. }
  destruct (margin_at_zero
              (mul (mul (Fin 1000) (HITCH_FACTORS vertical)) (round 9.80665))
              true false) as [H1 H2].
  { destruct (effective_WLL_pos (Fin 1000) vertical Hb Hgt) as [->|(z & -> & Hz)];
      [now left|right]. exists z. split; [reflexivity|apply negative_false; lra]. }
  rewrite H2, H1. unfold MINIMUM_SAFETY_MARGIN. rewrite round_25, round_100.
  repeat split.
Qed.

(** The amended C3 for a 1000 kg sling in a vertical hitch. *)
Lemma C3_zero_tension_by_sign_witness :
  binary64 (Fin 1000) /\
  SafetyAnalysis.safetyMargin
    (calculateSafetyFactors (Zero false) (Fin 1000) vertical) = Inf false /\
  SafetyAnalysis.isWLLAdequate
    (calculateSafetyFactors (Zero false) (Fin 1000) vertical) = true.
Proof.
  assert (Hb : binary64 (Fin 1000)).
  { simpl. split; [lra|]. split; [apply (format_IZR 1000); reflexivity|].
    pose proof bpow_1024_gt. rewrite Rabs_pos_eq by lra. lra. }
  split; [exact Hb|].
  destruct (C3_zero_tension_by_sign (Fin 1000) vertical false Hb) as [H _].
  apply H. unfold gt, lt. simpl. destruct (Rlt_dec 0 1000); [reflexivity|lra].
Defined.

End RiggingBinary64Properties.
